(** * python-execution-trace: the [record] decorator

    A shallow embedding of [record.py]: the text normaliser
    ([find_indent_level], [strip_indent]), the syntax-tree rewrite
    ([_fill_body_with_record] and the node builders it calls), the two
    runtime functions the rewritten tree calls and the decorator [record]
    itself, followed by the properties of the rewrite and of running a
    rewritten definition. *)

From Stdlib Require Import List String Ascii ZArith Bool Lia Arith.
Import ListNotations.
Local Open Scope string_scope.
Local Open Scope list_scope.

(** ** Exceptions and fallible results *)

Inductive exn : Type :=
| IndexError
| NameError
| TypeError
| ValueError
| AssertionError.

Inductive py_result (A : Type) : Type :=
| Ok (a : A)
| Raise (e : exn).
Arguments Ok {A} a.
Arguments Raise {A} e.

(** ** Text normaliser *)

Module Text.

(** [string.whitespace] of Python 2: tab, line feed, vertical tab, form
    feed, carriage return and space. *)
Definition whitespace : list ascii :=
  [ascii_of_nat 9; ascii_of_nat 10; ascii_of_nat 11;
   ascii_of_nat 12; ascii_of_nat 13; ascii_of_nat 32].

Definition in_ws (c : ascii) : bool :=
  existsb (Ascii.eqb c) whitespace.

Definition newline : ascii := ascii_of_nat 10.

(** The [for i, c in enumerate(source)] loop of [find_indent_level]:
    [Some i] is the [return i] inside the loop, [None] is the loop running
    off the end of [source]. *)
Fixpoint find_indent_loop (i : nat) (source : string) : option nat :=
  match source with
  | EmptyString => None
  | String c rest =>
      if in_ws c then find_indent_loop (S i) rest else Some i
  end.

Definition find_indent_level (source : string) : nat :=
  match find_indent_loop 0 source with
  | Some i => i
  | None => String.length source
  end.

(** [source.split('\n')]: never empty, [''] for the empty string. *)
Fixpoint split_lines (source : string) : list string :=
  match source with
  | EmptyString => [EmptyString]
  | String c rest =>
      if Ascii.eqb c newline then EmptyString :: split_lines rest
      else match split_lines rest with
           | [] => [String c EmptyString]
           | line :: lines => String c line :: lines
           end
  end.

(** ['\n'.join(lines)]. *)
Fixpoint join_lines (lines : list string) : string :=
  match lines with
  | [] => EmptyString
  | line :: rest =>
      match rest with
      | [] => line
      | _ :: _ => line ++ String newline (join_lines rest)
      end
  end.

Fixpoint drop_chars (n : nat) (line : string) : string :=
  match n, line with
  | O, _ => line
  | S _, EmptyString => EmptyString
  | S m, String _ rest => drop_chars m rest
  end.

(** The slice [line[indent_level:]].  A Python slice is clamped to the
    length of the string, so this never raises. *)
Definition slice_from (line : string) (indent_level : nat) : py_result string :=
  Ok (drop_chars indent_level line).

(** One turn of the loop of [strip_indent]: the [try] around the slice and
    its [except IndexError] handler; any other exception would leave the
    function. *)
Definition strip_line (indent_level : nat) (line : string) : py_result string :=
  match slice_from line indent_level with
  | Ok l => Ok l
  | Raise IndexError => Ok EmptyString
  | Raise e => Raise e
  end.

Fixpoint strip_lines (indent_level : nat) (lines : list string)
  : py_result (list string) :=
  match lines with
  | [] => Ok []
  | line :: rest =>
      match strip_line indent_level line with
      | Raise e => Raise e
      | Ok l =>
          match strip_lines indent_level rest with
          | Raise e => Raise e
          | Ok ls => Ok (l :: ls)
          end
      end
  end.

(** [strip_indent] with the indent level as a parameter (the test suite
    replaces [find_indent_level] by a constant). *)
Definition strip_indent_at (indent_level : nat) (source : string)
  : py_result string :=
  match strip_lines indent_level (split_lines source) with
  | Raise e => Raise e
  | Ok stripped_lines => Ok (join_lines stripped_lines)
  end.

Definition strip_indent (source : string) : py_result string :=
  strip_indent_at (find_indent_level source) source.

(** The first line of a text: everything before the first line feed. *)
Fixpoint first_line (source : string) : string :=
  match source with
  | EmptyString => EmptyString
  | String c rest =>
      if Ascii.eqb c newline then EmptyString else String c (first_line rest)
  end.

Fixpoint all_ws (s : string) : bool :=
  match s with
  | EmptyString => true
  | String c rest => in_ws c && all_ws rest
  end.

Fixpoint no_newline (s : string) : bool :=
  match s with
  | EmptyString => true
  | String c rest => negb (Ascii.eqb c newline) && no_newline rest
  end.

End Text.

(** ** Syntax trees

    The part of Python 2's [ast] that the rewrite reads or builds.  Only
    statements carry their [lineno]: the rewrite never reads the position
    of an expression and builds every node of its own at line 0, column 0.
    The column of a node ([col_offset]) is left out: the rewrite does not
    read it, and two trees that differ in columns only are one tree here.
    The fields [value] of [Assign] and [Return] are optional, as a node's
    fields are in Python: a bare [return] has [value = None], and
    [_make_return_trace_call_exprs] copies that field into an [Assign]
    without looking at it. *)

Module Ast.

Local Set Warnings "-register-all".

Inductive expr_context : Type := Load | Store.

Inductive operator : Type := Add | Sub | Mult.

Inductive cmpop : Type := Eq | NotEq | Lt | LtE | Gt | GtE.

Inductive expr : Type :=
| Name (id : string) (ctx : expr_context)
| Num (n : Z)
| BinOp (left : expr) (op : operator) (right : expr)
| Compare (left : expr) (op : cmpop) (right : expr)
| Call (func : expr) (args : list expr).

Inductive stmt : Type :=
| Assign (targets : list expr) (value : option expr) (lineno : Z)
| AugAssign (target : expr) (op : operator) (value : expr) (lineno : Z)
| Expr (value : expr) (lineno : Z)
| Print (value : expr) (lineno : Z)
| Pass (lineno : Z)
| Break (lineno : Z)
| Continue (lineno : Z)
| Return (value : option expr) (lineno : Z)
| If (test : expr) (body orelse : list stmt) (lineno : Z)
| While (test : expr) (body orelse : list stmt) (lineno : Z)
| For (target iter : expr) (body orelse : list stmt) (lineno : Z).

(** [item.lineno] *)
Definition stmt_lineno (item : stmt) : Z :=
  match item with
  | Assign _ _ l | AugAssign _ _ _ l | Expr _ l | Print _ l | Pass l
  | Break l | Continue l | Return _ l
  | If _ _ _ l | While _ _ _ l | For _ _ _ _ l => l
  end.

(** [item.value], read by the rewrite on [Return] nodes only. *)
Definition stmt_value (item : stmt) : option expr :=
  match item with
  | Assign _ v _ | Return v _ => v
  | AugAssign _ _ v _ | Expr v _ | Print v _ => Some v
  | _ => None
  end.

(** [isinstance(item, ast.Return)] *)
Definition is_return (item : stmt) : bool :=
  match item with Return _ _ => true | _ => false end.

(** [hasattr(item, 'body')] and [hasattr(item, 'orelse')]: a parsed [If],
    [While] or [For] has both fields, [orelse] being the empty list when
    the source has no [else]. *)
Definition has_body (item : stmt) : bool :=
  match item with
  | If _ _ _ _ | While _ _ _ _ | For _ _ _ _ _ => true
  | _ => false
  end.

Definition has_orelse (item : stmt) : bool :=
  match item with
  | If _ _ _ _ | While _ _ _ _ | For _ _ _ _ _ => true
  | _ => false
  end.

Definition stmt_body (item : stmt) : list stmt :=
  match item with
  | If _ b _ _ | While _ b _ _ | For _ _ b _ _ => b
  | _ => []
  end.

Definition stmt_orelse (item : stmt) : list stmt :=
  match item with
  | If _ _ o _ | While _ _ o _ | For _ _ _ o _ => o
  | _ => []
  end.

(** A function definition: the node [parsed.body[0]]. *)
Record FunctionDef : Type := {
  name : string;
  args : list string;
  body : list stmt
}.

End Ast.
Import Ast.

(** ** The rewrite *)

Definition RECORD_FN_NAME : string := "_record_state_fn_hidden_123".
Definition DUMP_FN_NAME : string := "_dump_state_fn_hidden_123".
Definition RETVAL_NAME : string := "_retval_hidden_123".

Definition _make_record_state_call_expr (lineno : Z) : stmt :=
  let name := Name "locals" Load in
  let locals_call := Call name [] in
  let num := Num lineno in
  let name := Name RECORD_FN_NAME Load in
  let call := Call name [num; locals_call] in
  Expr call 0.

Definition _make_dump_state_call_expr : stmt :=
  let name := Name DUMP_FN_NAME Load in
  let call := Call name [] in
  Expr call 0.

Definition _make_return_trace_call_exprs (item : stmt) : list stmt :=
  let store_name := Name RETVAL_NAME Store in
  let load_name := Name RETVAL_NAME Load in
  let assign := Assign [store_name] (stmt_value item) 0 in
  let ret := Return (Some load_name) 0 in
  [assign;
   _make_record_state_call_expr (stmt_lineno item);
   _make_dump_state_call_expr;
   ret].

(** One turn of the loop [for item in original_body]: the statements the
    turn adds to [new_body].  The two recursive calls on [item.body] and
    [item.orelse] pass [prepend=True] and [item.lineno], so their assertion
    holds and their result is the emission call followed by the rewritten
    block; [fill_loop_nested] below states exactly that, and
    [fill_loop_step] gives the turn in the shape the source has, with its
    [isinstance] and [hasattr] tests and its flag [has_nested]. *)
Fixpoint fill_item (item : stmt) : list stmt :=
  let nested := fun (lineno : Z) (block : list stmt) =>
    _make_record_state_call_expr lineno ::
    (fix fill_loop (original_body : list stmt) : list stmt :=
       match original_body with
       | [] => []
       | x :: rest => fill_item x ++ fill_loop rest
       end) block in
  match item with
  | Return _ _ => _make_return_trace_call_exprs item
  | If test body orelse lineno =>
      [If test (nested lineno body) (nested lineno orelse) lineno]
  | While test body orelse lineno =>
      [While test (nested lineno body) (nested lineno orelse) lineno]
  | For target iter body orelse lineno =>
      [For target iter (nested lineno body) (nested lineno orelse) lineno]
  | _ => [item; _make_record_state_call_expr (stmt_lineno item)]
  end.

(** The whole loop. *)
Fixpoint fill_loop (original_body : list stmt) : list stmt :=
  match original_body with
  | [] => []
  | item :: rest => fill_item item ++ fill_loop rest
  end.

Definition _fill_body_with_record (original_body : list stmt)
    (prepend : bool) (lineno : option Z) : py_result (list stmt) :=
  if prepend then
    match lineno with
    | None => Raise AssertionError
    | Some l => Ok (_make_record_state_call_expr l :: fill_loop original_body)
    end
  else Ok (fill_loop original_body).

(** ** Values, local scopes and the process-wide state *)

Module Runtime.

Local Set Warnings "-register-all".

(** Values are plain data: a dict is the list of its items, in insertion
    order and without repeated keys. *)
Inductive value : Type :=
| VNone
| VInt (n : Z)
| VBool (b : bool)
| VList (items : list value)
| VDict (items : list (string * value)).

(** [d.get(id)] and [d[id] = v] *)
Fixpoint lookup {A : Type} (id : string) (d : list (string * A)) : option A :=
  match d with
  | [] => None
  | (k, v) :: rest => if String.eqb k id then Some v else lookup id rest
  end.

Fixpoint update {A : Type} (id : string) (v : A) (d : list (string * A))
  : list (string * A) :=
  match d with
  | [] => [(id, v)]
  | (k, w) :: rest =>
      if String.eqb k id then (k, v) :: rest else (k, w) :: update id v rest
  end.

(** [copy.deepcopy] *)
Fixpoint deepcopy (v : value) : value :=
  match v with
  | VList items => VList (map deepcopy items)
  | VDict items =>
      VDict (map (fun kv => match kv with (k, x) => (k, deepcopy x) end) items)
  | _ => v
  end.

(** A trace entry: the tuple [(lineno, copy.deepcopy(f_locals))]. *)
Definition entry : Type := (value * value)%type.

(** What reaches the operator's terminal: the values of the definition's
    own [print] statements and the line [Recorded execution in <path>] of
    the dump function; a path is the number of the temporary file. *)
Inductive output : Type :=
| Printed (v : value)
| Recorded (path : nat).

(** The functions a call by name can reach. *)
Inductive builtin : Type := BLocals | BRange | BRecord | BDump.

(** The state outside the running definition:
    - [env], the names [record] injects into the defining module;
    - [store], the global [_record_store_hidden_123]: [None] until the
      first decoration, then the list under its key ['data'];
    - [files], the contents of the temporary files written so far;
    - [stdout]. *)
Record world : Type := {
  env : list (string * builtin);
  store : option (list entry);
  files : list (option (list entry));
  stdout : list output
}.

Definition set_store (w : world) (d : option (list entry)) : world :=
  {| env := env w; store := d; files := files w; stdout := stdout w |}.

Definition put (w : world) (o : output) : world :=
  {| env := env w; store := store w; files := files w;
     stdout := stdout w ++ [o] |}.

(** [_record_state_fn_hidden_123(lineno, f_locals)]; subscripting the
    store while it is still [None] raises. *)
Definition _record_state_fn_hidden_123 (lineno f_locals : value) (w : world)
  : py_result (value * world) :=
  match store w with
  | None => Raise TypeError
  | Some data =>
      Ok (VNone, set_store w (Some (data ++ [(lineno, deepcopy f_locals)])))
  end.

(** [_dump_state_fn_hidden_123()]: a fresh temporary file receives the
    whole store, and its path is printed. *)
Definition _dump_state_fn_hidden_123 (w : world) : py_result (value * world) :=
  let path := List.length (files w) in
  Ok (VNone,
      {| env := env w; store := store w;
         files := files w ++ [store w];
         stdout := stdout w ++ [Recorded path] |}).

End Runtime.
Import Runtime.

(** ** Running a definition

    The statements of a definition are run by a fuel-bounded interpreter
    of the fragment: integer arithmetic and comparisons, calls by name,
    assignments to names, [print], [if], [while] and [for] with their
    [else] blocks, [break], [continue] and [return].  Functions are not
    values here: a call names its function, a name bound in the local
    scope is not callable, and a free name is looked up in the module's
    globals ([env]) and then among the builtins [locals] and [range]. *)

Module Interp.

Definition locals : Type := list (string * value).

Definition bind {A B : Type} (c : py_result A) (k : A -> py_result B)
  : py_result B :=
  match c with
  | Ok a => k a
  | Raise e => Raise e
  end.

Notation "x <- c ;; k" := (bind c (fun x => k))
  (at level 61, c at next level, right associativity).
Notation "' p <- c ;; k" := (bind c (fun x => match x with p => k end))
  (at level 61, p pattern, c at next level, right associativity).

Definition truthy (v : value) : bool :=
  match v with
  | VNone => false
  | VInt n => negb (n =? 0)%Z
  | VBool b => b
  | VList items => match items with [] => false | _ :: _ => true end
  | VDict items => match items with [] => false | _ :: _ => true end
  end.

Definition binop (op : operator) (a b : value) : py_result value :=
  match a, b with
  | VInt x, VInt y =>
      Ok (VInt match op with
               | Add => x + y
               | Sub => x - y
               | Mult => x * y
               end%Z)
  | _, _ => Raise TypeError
  end.

Definition compare (op : cmpop) (a b : value) : py_result value :=
  match a, b with
  | VInt x, VInt y =>
      Ok (VBool match op with
                | Eq => x =? y
                | NotEq => negb (x =? y)
                | Lt => x <? y
                | LtE => x <=? y
                | Gt => x >? y
                | GtE => x >=? y
                end%Z)
  | _, _ => Raise TypeError
  end.

(** [range(n)] *)
Definition range (n : Z) : list value :=
  map (fun i => VInt (Z.of_nat i)) (seq 0 (Z.to_nat n)).

(** A free name called as a function: module globals, then builtins. *)
Definition resolve (f : string) (w : world) : option builtin :=
  match lookup f (env w) with
  | Some b => Some b
  | None =>
      if String.eqb f "locals" then Some BLocals
      else if String.eqb f "range" then Some BRange
      else None
  end.

Definition apply_builtin (b : builtin) (vs : list value) (lc : locals)
    (w : world) : py_result (value * world) :=
  match b, vs with
  | BLocals, [] => Ok (VDict lc, w)
  | BRange, [VInt n] => Ok (VList (range n), w)
  | BRecord, [lineno; f_locals] => _record_state_fn_hidden_123 lineno f_locals w
  | BDump, [] => _dump_state_fn_hidden_123 w
  | _, _ => Raise TypeError
  end.

Fixpoint eval (e : expr) (lc : locals) (w : world) {struct e}
  : py_result (value * world) :=
  match e with
  | Name id _ =>
      match lookup id lc with
      | Some v => Ok (v, w)
      | None => Raise NameError
      end
  | Num n => Ok (VInt n, w)
  | BinOp l op r =>
      '(a, w1) <- eval l lc w ;;
      '(b, w2) <- eval r lc w1 ;;
      v <- binop op a b ;;
      Ok (v, w2)
  | Compare l op r =>
      '(a, w1) <- eval l lc w ;;
      '(b, w2) <- eval r lc w1 ;;
      v <- compare op a b ;;
      Ok (v, w2)
  | Call func args =>
      match func with
      | Name f _ =>
          match lookup f lc with
          | Some _ => Raise TypeError
          | None =>
              match resolve f w with
              | None => Raise NameError
              | Some b =>
                  '(vs, w1) <-
                    (fix eval_args (es : list expr) (w : world)
                       : py_result (list value * world) :=
                       match es with
                       | [] => Ok ([], w)
                       | a :: rest =>
                           '(v, w1) <- eval a lc w ;;
                           '(vs, w2) <- eval_args rest w1 ;;
                           Ok (v :: vs, w2)
                       end) args w ;;
                  apply_builtin b vs lc w1
              end
          end
      | _ => Raise TypeError
      end
  end.

(** The arguments of a call, left to right. *)
Definition eval_args (lc : locals)
  : list expr -> world -> py_result (list value * world) :=
  fix eval_args (es : list expr) (w : world)
    : py_result (list value * world) :=
    match es with
    | [] => Ok ([], w)
    | a :: rest =>
        '(v, w1) <- eval a lc w ;;
        '(vs, w2) <- eval_args rest w1 ;;
        Ok (v :: vs, w2)
    end.

Fixpoint assign_targets (targets : list expr) (v : value) (lc : locals)
  : py_result locals :=
  match targets with
  | [] => Ok lc
  | Name id _ :: rest => assign_targets rest v (update id v lc)
  | _ :: _ => Raise TypeError
  end.

Inductive outcome : Type :=
| Normal (lc : locals) (w : world)
| Brk (lc : locals) (w : world)
| Cont (lc : locals) (w : world)
| Ret (v : value) (lc : locals) (w : world)
| Exc (e : exn) (w : world)
| OutOfFuel.

(** One statement.  A block nested in it runs with one unit of fuel less,
    and so does the next turn of a [while]. *)
Fixpoint exec_stmt (fuel : nat) (item : stmt) (lc : locals) (w : world)
    {struct fuel} : outcome :=
  match fuel with
  | O => OutOfFuel
  | S fuel' =>
      let exec_block :=
        fix exec_block (b : list stmt) (lc : locals) (w : world) : outcome :=
          match b with
          | [] => Normal lc w
          | x :: rest =>
              match exec_stmt fuel' x lc w with
              | Normal lc1 w1 => exec_block rest lc1 w1
              | o => o
              end
          end in
      match item with
      | Assign targets value _ =>
          match value with
          | None => Exc ValueError w
          | Some e =>
              match eval e lc w with
              | Raise x => Exc x w
              | Ok (v, w1) =>
                  match assign_targets targets v lc with
                  | Ok lc1 => Normal lc1 w1
                  | Raise x => Exc x w1
                  end
              end
          end
      | AugAssign target op value _ =>
          match target with
          | Name id _ =>
              match lookup id lc with
              | None => Exc NameError w
              | Some a =>
                  match eval value lc w with
                  | Raise x => Exc x w
                  | Ok (b, w1) =>
                      match binop op a b with
                      | Ok v => Normal (update id v lc) w1
                      | Raise x => Exc x w1
                      end
                  end
              end
          | _ => Exc TypeError w
          end
      | Expr value _ =>
          match eval value lc w with
          | Raise x => Exc x w
          | Ok (_, w1) => Normal lc w1
          end
      | Print value _ =>
          match eval value lc w with
          | Raise x => Exc x w
          | Ok (v, w1) => Normal lc (put w1 (Printed v))
          end
      | Pass _ => Normal lc w
      | Break _ => Brk lc w
      | Continue _ => Cont lc w
      | Return value _ =>
          match value with
          | None => Ret VNone lc w
          | Some e =>
              match eval e lc w with
              | Raise x => Exc x w
              | Ok (v, w1) => Ret v lc w1
              end
          end
      | If test body orelse _ =>
          match eval test lc w with
          | Raise x => Exc x w
          | Ok (c, w1) =>
              if truthy c then exec_block body lc w1
              else exec_block orelse lc w1
          end
      | While test body orelse _ =>
          match eval test lc w with
          | Raise x => Exc x w
          | Ok (c, w1) =>
              if truthy c then
                match exec_block body lc w1 with
                | Normal lc2 w2 | Cont lc2 w2 => exec_stmt fuel' item lc2 w2
                | Brk lc2 w2 => Normal lc2 w2
                | o => o
                end
              else exec_block orelse lc w1
          end
      | For target iter body orelse _ =>
          match target with
          | Name id _ =>
              match eval iter lc w with
              | Raise x => Exc x w
              | Ok (VList items, w1) =>
                  (fix loop (items : list value) (lc : locals) (w : world)
                     : outcome :=
                     match items with
                     | [] => exec_block orelse lc w
                     | v :: rest =>
                         match exec_block body (update id v lc) w with
                         | Normal lc2 w2 | Cont lc2 w2 => loop rest lc2 w2
                         | Brk lc2 w2 => Normal lc2 w2
                         | o => o
                         end
                     end) items lc w1
              | Ok (_, w1) => Exc TypeError w1
              end
          | _ => Exc TypeError w
          end
      end
  end.

(** A block: its statements in order, each with [fuel]. *)
Definition exec_block (fuel : nat) : list stmt -> locals -> world -> outcome :=
  fix exec_block (b : list stmt) (lc : locals) (w : world) : outcome :=
    match b with
    | [] => Normal lc w
    | x :: rest =>
        match exec_stmt fuel x lc w with
        | Normal lc1 w1 => exec_block rest lc1 w1
        | o => o
        end
    end.

(** The turns of a [for] loop over the remaining [items]. *)
Definition for_loop (fuel : nat) (id : string) (body orelse : list stmt)
  : list value -> locals -> world -> outcome :=
  fix loop (items : list value) (lc : locals) (w : world) : outcome :=
    match items with
    | [] => exec_block fuel orelse lc w
    | v :: rest =>
        match exec_block fuel body (update id v lc) w with
        | Normal lc2 w2 | Cont lc2 w2 => loop rest lc2 w2
        | Brk lc2 w2 => Normal lc2 w2
        | o => o
        end
    end.

(** Calling a definition with positional arguments. *)
Fixpoint bind_args (params : list string) (vs : list value) (lc : locals)
  : py_result locals :=
  match params, vs with
  | [], [] => Ok lc
  | p :: ps, v :: rest => bind_args ps rest (update p v lc)
  | _, _ => Raise TypeError
  end.

Inductive call_result : Type :=
| Returned (v : value) (w : world)
| Raised (e : exn) (w : world)
| NoFuel.

(** A [break] or [continue] outside a loop does not compile, so no
    definition leaves its body with one; the model raises there. *)
Definition call (fuel : nat) (f : FunctionDef) (vs : list value) (w : world)
  : call_result :=
  match bind_args (args f) vs [] with
  | Raise e => Raised e w
  | Ok lc =>
      match exec_block fuel (body f) lc w with
      | Normal _ w1 => Returned VNone w1
      | Ret v _ w1 => Returned v w1
      | Exc e w1 => Raised e w1
      | Brk _ w1 | Cont _ w1 => Raised ValueError w1
      | OutOfFuel => NoFuel
      end
  end.

End Interp.
Import Interp.

(** ** The decorator *)

(** What [compile] requires of the nodes the fragment has: every [Assign]
    carries a value. *)
Fixpoint compile_ok (item : stmt) : bool :=
  let block :=
    fix block (b : list stmt) : bool :=
      match b with
      | [] => true
      | x :: rest => compile_ok x && block rest
      end in
  match item with
  | Assign _ None _ => false
  | If _ body orelse _ | While _ body orelse _ | For _ _ body orelse _ =>
      block body && block orelse
  | _ => true
  end.

Definition compile_block_ok (b : list stmt) : bool := forallb compile_ok b.

(** [record(f)].  [parsed.body[0]] is [f]'s own tree; [_blocked] is the
    module flag, true only while the [exec] of a rewritten definition runs
    its decorator line again.  The world returned has the two runtime
    functions injected into the module and a fresh store.  The [exec]
    binds the rewritten definition under its name in the module, and
    [env[f.__name__]] is what [record] returns: here that definition is
    the one returned, and [env] keeps the runtime functions only.  The
    tree of [f] is taken as given; getting the source, [strip_indent] and
    [ast.parse] come before it. *)
Definition record (f : FunctionDef) (_blocked : bool) (w : world)
  : py_result (FunctionDef * world) :=
  if _blocked then Ok (f, w)
  else
    let original_body := body f in
    new_body <- _fill_body_with_record original_body false None ;;
    if compile_block_ok new_body then
      let env1 := update RECORD_FN_NAME BRecord (env w) in
      let env2 := update DUMP_FN_NAME BDump env1 in
      Ok ({| name := name f; args := args f; body := new_body |},
          {| env := env2; store := Some [];
             files := files w; stdout := stdout w |})
    else Raise ValueError.

(** ** Vocabulary of the properties *)

(** The names the rewritten tree relies on. *)
Definition reserved : list string := [RECORD_FN_NAME; DUMP_FN_NAME; "locals"].

Definition is_reserved (id : string) : bool :=
  existsb (String.eqb id) reserved.

(** No name of the expression is reserved. *)
Fixpoint clean_expr (e : expr) : bool :=
  match e with
  | Name id _ => negb (is_reserved id)
  | Num _ => true
  | BinOp l _ r | Compare l _ r => clean_expr l && clean_expr r
  | Call func args =>
      clean_expr func &&
      (fix clean_args (es : list expr) : bool :=
         match es with
         | [] => true
         | a :: rest => clean_expr a && clean_args rest
         end) args
  end.

Definition clean_value (v : option expr) : bool :=
  match v with
  | None => true
  | Some e => clean_expr e
  end.

(** No name of the statement is reserved, at any depth. *)
Fixpoint clean_stmt (item : stmt) : bool :=
  let block :=
    fix block (b : list stmt) : bool :=
      match b with
      | [] => true
      | x :: rest => clean_stmt x && block rest
      end in
  match item with
  | Assign targets value _ => forallb clean_expr targets && clean_value value
  | AugAssign target _ value _ => clean_expr target && clean_expr value
  | Expr value _ | Print value _ => clean_expr value
  | Pass _ | Break _ | Continue _ => true
  | Return value _ => clean_value value
  | If test body orelse _ | While test body orelse _ =>
      clean_expr test && block body && block orelse
  | For target iter body orelse _ =>
      clean_expr target && clean_expr iter && block body && block orelse
  end.

Definition clean_block (b : list stmt) : bool := forallb clean_stmt b.

(** A definition that stays clear of the reserved names, parameters
    included. *)
Definition clean_def (f : FunctionDef) : bool :=
  forallb (fun p => negb (is_reserved p)) (args f) && clean_block (body f).

(** A local scope that binds no reserved name. *)
Definition unshadowed (lc : locals) : bool :=
  forallb (fun kv => negb (is_reserved (fst kv))) lc.

(** The module as [record] leaves it when it held none of the two names
    before. *)
Definition runtime_env : list (string * builtin) :=
  [(RECORD_FN_NAME, BRecord); (DUMP_FN_NAME, BDump)].

(** A plain statement: not a [return], no nested block. *)
Definition is_plain (item : stmt) : bool :=
  negb (is_return item) && negb (has_body item || has_orelse item).

Definition has_nested (item : stmt) : bool := has_body item || has_orelse item.

(** The positions of a list of trace entries. *)
Definition positions (data : list entry) : list value := map fst data.

Definition line (l : Z) : value := VInt l.

(** The entries of the store; none while it is [None]. *)
Definition trace (w : world) : list entry :=
  match store w with
  | Some data => data
  | None => []
  end.

(** [item.body = new_body; item.orelse = new_orelse] *)
Definition with_blocks (item : stmt) (new_body new_orelse : list stmt) : stmt :=
  match item with
  | If test _ _ l => If test new_body new_orelse l
  | While test _ _ l => While test new_body new_orelse l
  | For target iter _ _ l => For target iter new_body new_orelse l
  | _ => item
  end.

(** The statements [seg] stand next to each other, in this order, in the
    block [b] or in a block nested in it at any depth. *)
Inductive occurs (seg : list stmt) : list stmt -> Prop :=
| occurs_here (rest : list stmt) : occurs seg (seg ++ rest)
| occurs_later (x : stmt) (rest : list stmt) :
    occurs seg rest -> occurs seg (x :: rest)
| occurs_body (x : stmt) (rest : list stmt) :
    occurs seg (stmt_body x) -> occurs seg (x :: rest)
| occurs_orelse (x : stmt) (rest : list stmt) :
    occurs seg (stmt_orelse x) -> occurs seg (x :: rest).

(** A node the rewrite built: it sits at line 0, where the parser puts no
    statement. *)
Definition generated (item : stmt) : bool := (stmt_lineno item =? 0)%Z.

(** The block without the nodes the rewrite built, at every depth. *)
Fixpoint strip_stmt (item : stmt) : stmt :=
  let strip :=
    fix strip (b : list stmt) : list stmt :=
      match b with
      | [] => []
      | x :: rest =>
          if generated x then strip rest else strip_stmt x :: strip rest
      end in
  match item with
  | If test body orelse l => If test (strip body) (strip orelse) l
  | While test body orelse l => While test (strip body) (strip orelse) l
  | For target iter body orelse l =>
      For target iter (strip body) (strip orelse) l
  | _ => item
  end.

Fixpoint strip_generated (b : list stmt) : list stmt :=
  match b with
  | [] => []
  | x :: rest =>
      if generated x then strip_generated rest
      else strip_stmt x :: strip_generated rest
  end.

(** The block without its [return] statements, at every depth. *)
Fixpoint drop_returns_stmt (item : stmt) : stmt :=
  let drop :=
    fix drop (b : list stmt) : list stmt :=
      match b with
      | [] => []
      | x :: rest =>
          if is_return x then drop rest else drop_returns_stmt x :: drop rest
      end in
  match item with
  | If test body orelse l => If test (drop body) (drop orelse) l
  | While test body orelse l => While test (drop body) (drop orelse) l
  | For target iter body orelse l =>
      For target iter (drop body) (drop orelse) l
  | _ => item
  end.

Fixpoint drop_returns (b : list stmt) : list stmt :=
  match b with
  | [] => []
  | x :: rest =>
      if is_return x then drop_returns rest
      else drop_returns_stmt x :: drop_returns rest
  end.

(** Every statement of the block, at every depth, has a line number of
    the parser: 1 or more. *)
Fixpoint parsed_stmt (item : stmt) : bool :=
  let block :=
    fix block (b : list stmt) : bool :=
      match b with
      | [] => true
      | x :: rest => parsed_stmt x && block rest
      end in
  (0 <? stmt_lineno item)%Z &&
  match item with
  | If _ body orelse _ | While _ body orelse _ | For _ _ body orelse _ =>
      block body && block orelse
  | _ => true
  end.

Definition parsed_block (b : list stmt) : bool := forallb parsed_stmt b.

(** The emission calls among the statements of a block, nested blocks not
    entered. *)
Definition is_emission_call (item : stmt) : bool :=
  match item with
  | Expr (Call (Name f Load) [Num _; Call (Name g Load) []]) 0 =>
      String.eqb f RECORD_FN_NAME && String.eqb g "locals"
  | _ => false
  end.

Definition emission_calls (b : list stmt) : list stmt :=
  filter is_emission_call b.

(** ** The definitions of the test suite

    Line 1 is the decorator line, line 2 the [def]. *)

Module Tests.

Local Open Scope Z_scope.

Definition x := Name "x" Load.
Definition y := Name "y" Load.
Definition s := Name "s" Load.
Definition i := Name "i" Load.
Definition set (id : string) (e : expr) (l : Z) : stmt :=
  Assign [Name id Store] (Some e) l.

Definition test_simple : FunctionDef :=
  {| name := "foo"; args := [];
     body := [set "x" (Num 5) 3; set "y" (Num 6) 4] |}.

Definition test_conditional : FunctionDef :=
  {| name := "foo"; args := [];
     body := [set "x" (Num 3) 3; set "y" (Num 2) 4;
              If (Compare x Eq (Num 3)) [set "y" (Num 5) 6] [] 5] |}.

Definition test_conditional_else : FunctionDef :=
  {| name := "foo"; args := [];
     body := [set "x" (Num 3) 3; set "y" (Num 2) 4;
              If (Compare x NotEq (Num 3))
                 [set "y" (Num 5) 6] [set "y" (Num 6) 8] 5] |}.

Definition test_while : FunctionDef :=
  {| name := "foo"; args := [];
     body := [set "x" (Num 3) 3; set "y" (Num 6) 4;
              While (Compare x Lt y)
                    [AugAssign (Name "x" Store) Add (Num 1) 7] [] 6] |}.

Definition test_for : FunctionDef :=
  {| name := "foo"; args := [];
     body := [set "x" (Num 3) 3; set "s" (Num 0) 4;
              For (Name "i" Store) (Call (Name "range" Load) [x])
                  [set "s" (BinOp s Add i) 6] [] 5] |}.

Definition test_nested_if_in_for : FunctionDef :=
  {| name := "foo"; args := [];
     body := [set "x" (Num 3) 3; set "s" (Num 0) 4;
              For (Name "i" Store) (Call (Name "range" Load) [x])
                  [If (Compare s Gt (Num (-1)))
                      [AugAssign (Name "s" Store) Add i 7] [] 6] [] 5] |}.

Definition test_return_wrapping : FunctionDef :=
  {| name := "foo"; args := [];
     body := [set "x" (Num 3) 3; Return (Some x) 4] |}.

(** A module in which nothing has been decorated yet. *)
Definition fresh : world :=
  {| env := []; store := None; files := []; stdout := [] |}.

End Tests.

(** ** Relating a run of the original to a run of the rewritten tree *)

(** [w1] differs from [w] by lines printed only. *)
Definition quiet (w w1 : world) : Prop :=
  env w1 = env w /\ store w1 = store w /\ files w1 = files w /\
  exists out, stdout w1 = stdout w ++ out.

(** [w'] is [w] with trace entries appended to the store, the runtime
    functions being in place in both. *)
Definition sim (w w' : world) : Prop :=
  env w = runtime_env /\ env w' = runtime_env /\
  files w' = files w /\ stdout w' = stdout w /\
  exists extra, store w' = Some (trace w ++ extra).

(** The world after one call of the dump function. *)
Definition flushed (w : world) : world :=
  {| env := env w; store := store w;
     files := files w ++ [store w];
     stdout := stdout w ++ [Recorded (List.length (files w))] |}.

(** The outcome [o'] of the rewritten block against the outcome [o] of
    the original block, both started on the same local scope, the
    original in world [w]: same kind of outcome, same value or exception,
    same local scope, the worlds related by [sim]; a [return] has also
    bound [_retval_hidden_123], recorded a last entry with it and flushed
    once.  Nothing is asked when the original ran out of fuel. *)
Definition outcome_rel (w : world) (o o' : outcome) : Prop :=
  match o with
  | Normal lc1 w1 =>
      exists w1', o' = Normal lc1 w1' /\
                  unshadowed lc1 = true /\ quiet w w1 /\ sim w1 w1'
  | Brk lc1 w1 =>
      exists w1', o' = Brk lc1 w1' /\
                  unshadowed lc1 = true /\ quiet w w1 /\ sim w1 w1'
  | Cont lc1 w1 =>
      exists w1', o' = Cont lc1 w1' /\
                  unshadowed lc1 = true /\ quiet w w1 /\ sim w1 w1'
  | Ret v lc1 w1 =>
      exists w2', o' = Ret v (update RETVAL_NAME v lc1) (flushed w2') /\
                  quiet w w1 /\ sim w1 w2' /\
                  exists data l,
                    store w2' =
                    Some (data ++
                          [(line l, VDict (update RETVAL_NAME v lc1))])
  | Exc e w1 =>
      exists w1', o' = Exc e w1' /\ quiet w w1 /\ sim w1 w1'
  | OutOfFuel => True
  end.

(** A module whose globals hold nothing the fragment can call, or the
    two runtime functions of an earlier decoration. *)
Definition plain_module (w : world) : Prop :=
  env w = [] \/ env w = runtime_env.





(** A definition of the test suite, decorated in the fresh module. *)
Definition decorated (f : FunctionDef) : FunctionDef * world :=
  match record f false Tests.fresh with
  | Ok p => p
  | Raise _ => (f, Tests.fresh)
  end.

(** The lines recorded by one call of a decorated definition of the test
    suite, what [_check_record_calls] looks at. *)
Definition recorded_lines (f : FunctionDef) : option (list value) :=
  match call 8 (fst (decorated f)) [] (snd (decorated f)) with
  | Returned _ w1 => Some (positions (trace w1))
  | _ => None
  end.

(** The two texts of [test_strip_indent], line by line. *)
Definition indented_source : string :=
  Text.join_lines
    [""; "    def foo():"; "        x = 3"; ""; "        y = 4";
     "        # Comment here"; "        if x == 3:"; "            y = 5";
     "        return x + y"; ""].

Definition stripped_source : string :=
  Text.join_lines
    [""; "def foo():"; "    x = 3"; ""; "    y = 4";
     "    # Comment here"; "    if x == 3:"; "        y = 5";
     "    return x + y"; ""].

(** ** Vocabulary of the further properties *)



(** The line numbers of the statements of a block, at every depth. *)
Fixpoint stmt_linenos (item : stmt) : list Z :=
  let block :=
    fix block (b : list stmt) : list Z :=
      match b with
      | [] => []
      | x :: rest => stmt_linenos x ++ block rest
      end in
  stmt_lineno item ::
  match item with
  | If _ body orelse _ | While _ body orelse _ | For _ _ body orelse _ =>
      block body ++ block orelse
  | _ => []
  end.

Definition linenos (b : list stmt) : list Z := flat_map stmt_linenos b.

(** [w1] is [w] with entries appended to the store, files added after
    those there were and lines printed after those there were; the
    module's globals are the same. *)
Definition grows (w w1 : world) : Prop :=
  env w1 = env w /\
  match store w with
  | None => store w1 = None
  | Some data => exists extra, store w1 = Some (data ++ extra)
  end /\
  (exists more, files w1 = files w ++ more) /\
  (exists out, stdout w1 = stdout w ++ out).

(** The world an outcome leaves. *)
Definition outcome_world (o : outcome) : option world :=
  match o with
  | Normal _ w | Brk _ w | Cont _ w | Ret _ _ w | Exc _ w => Some w
  | OutOfFuel => None
  end.

(** The world an outcome leaves has grown from [w]. *)
Definition grows_outcome (w : world) (o : outcome) : Prop :=
  match outcome_world o with
  | Some w1 => grows w w1
  | None => True
  end.

(** The store holds [data] followed by entries recorded at lines of
    [allowed] only. *)
Definition extends_within (allowed : list Z) (data : list entry) (w1 : world)
  : Prop :=
  exists extra,
    store w1 = Some (data ++ extra) /\
    Forall (fun e => exists l, fst e = line l /\ In l allowed) extra.

(** What a run of a rewritten block keeps: the runtime functions in
    place and not shadowed while the block goes on, and a store extended
    within [allowed]. *)
Definition within_outcome (allowed : list Z) (data : list entry) (o : outcome)
  : Prop :=
  match o with
  | Normal lc1 w1 | Brk lc1 w1 | Cont lc1 w1 =>
      unshadowed lc1 = true /\ env w1 = runtime_env /\
      extends_within allowed data w1
  | Ret _ _ w1 | Exc _ w1 => extends_within allowed data w1
  | OutOfFuel => True
  end.

(** The statement ran to its end. *)
Definition completes (o : outcome) : bool :=
  match o with Normal _ _ => true | _ => false end.

(** ** Inserting only

    The specification's words for what the rewrite may do to a block:
    the statements of [old] stand in [new] in their order; what stands
    between them are emission calls; a statement with nested blocks has
    its blocks related in the same way; and a [return] stands as the four
    statements that replace it, its expression and its line kept. *)
Inductive only_inserts : list stmt -> list stmt -> Prop :=
| inserts_nil : only_inserts [] []
| inserts_call (l : Z) (old new : list stmt) :
    only_inserts old new ->
    only_inserts old
      (Expr (Call (Name RECORD_FN_NAME Load)
                  [Num l; Call (Name "locals" Load) []]) 0 :: new)
| inserts_keep (x : stmt) (old new : list stmt) :
    is_plain x = true ->
    only_inserts old new -> only_inserts (x :: old) (x :: new)
| inserts_nested (x : stmt) (new_body new_orelse old new : list stmt) :
    has_nested x = true ->
    only_inserts (stmt_body x) new_body ->
    only_inserts (stmt_orelse x) new_orelse ->
    only_inserts old new ->
    only_inserts (x :: old) (with_blocks x new_body new_orelse :: new)
| inserts_return (value : option expr) (l : Z) (old new : list stmt) :
    only_inserts old new ->
    only_inserts (Return value l :: old)
      (Assign [Name RETVAL_NAME Store] value 0 ::
       Expr (Call (Name RECORD_FN_NAME Load)
                  [Num l; Call (Name "locals" Load) []]) 0 ::
       Expr (Call (Name DUMP_FN_NAME Load) []) 0 ::
       Return (Some (Name RETVAL_NAME Load)) 0 :: new).


(** * Properties *)

(** ** Text normaliser *)

Section TextFacts.
Import Text.

Lemma split_lines_nonempty (s : string) : split_lines s <> [].
Proof.
  destruct s as [|c rest]; simpl; [discriminate|].
  destruct (Ascii.eqb c newline); [discriminate|].
  destruct (split_lines rest); discriminate.
Qed.

Lemma join_split (s : string) : join_lines (split_lines s) = s.
Proof.
  induction s as [|c rest IH]; [reflexivity|].
  cbn [split_lines].
  destruct (Ascii.eqb c newline) eqn:Hc.
  - apply Ascii.eqb_eq in Hc. subst c.
    cbn [join_lines]. rewrite IH.
    destruct (split_lines rest) eqn:Hs; [|reflexivity].
    now apply split_lines_nonempty in Hs.
  - destruct (split_lines rest) as [|l ls] eqn:Hs.
    + now apply split_lines_nonempty in Hs.
    + cbn [join_lines] in *. destruct ls; simpl; now rewrite <- IH.
Qed.

Lemma split_lines_no_newline (s : string) :
  Forall (fun l => no_newline l = true) (split_lines s).
Proof.
  induction s as [|c rest IH]; simpl.
  - now repeat constructor.
  - destruct (Ascii.eqb c newline) eqn:Hc.
    + now constructor.
    + destruct (split_lines rest) as [|l ls].
      * repeat constructor. simpl. now rewrite Hc.
      * inversion IH as [|? ? Hl Hls]; subst. constructor; trivial.
        simpl. now rewrite Hc, Hl.
Qed.

Lemma split_single (l : string) : no_newline l = true -> split_lines l = [l].
Proof.
  induction l as [|c rest IH]; simpl; [reflexivity|].
  intros H. apply andb_prop in H as [Hc Hr].
  apply negb_true_iff in Hc. rewrite Hc, (IH Hr). reflexivity.
Qed.

Lemma split_app_newline (l r : string) :
  no_newline l = true ->
  split_lines (l ++ String newline r) = l :: split_lines r.
Proof.
  induction l as [|c rest IH]; simpl; intros H.
  - reflexivity.
  - apply andb_prop in H as [Hc Hr].
    apply negb_true_iff in Hc. rewrite Hc, (IH Hr). reflexivity.
Qed.

Lemma split_join (ls : list string) :
  ls <> [] -> Forall (fun l => no_newline l = true) ls ->
  split_lines (join_lines ls) = ls.
Proof.
  induction ls as [|l rest IH]; [congruence|].
  intros _ Hall. inversion Hall as [|? ? Hl Hrest]; subst.
  cbn [join_lines]. destruct rest as [|l' rest'].
  - now apply split_single.
  - rewrite split_app_newline by assumption.
    f_equal. apply IH; [discriminate|assumption].
Qed.

Lemma drop_chars_no_newline (n : nat) (l : string) :
  no_newline l = true -> no_newline (drop_chars n l) = true.
Proof.
  revert l. induction n as [|n IH]; intros l H; [exact H|].
  destruct l as [|c rest]; [reflexivity|].
  simpl in *. apply andb_prop in H as [_ Hr]. now apply IH.
Qed.

Lemma drop_chars_short (n : nat) (l : string) :
  String.length l <= n -> drop_chars n l = EmptyString.
Proof.
  revert l. induction n as [|n IH]; intros [|c rest] H; simpl in *;
    try reflexivity; try lia.
  apply IH. lia.
Qed.

Lemma strip_lines_map (n : nat) (ls : list string) :
  strip_lines n ls = Ok (map (drop_chars n) ls).
Proof.
  induction ls as [|l rest IH]; [reflexivity|].
  simpl. rewrite IH. reflexivity.
Qed.

Lemma strip_lines_zero (ls : list string) : strip_lines 0 ls = Ok ls.
Proof.
  rewrite strip_lines_map. f_equal.
  induction ls as [|l rest IH]; [reflexivity|].
  cbn [map]. f_equal. exact IH.
Qed.

Lemma find_indent_loop_all_ws (source : string) :
  all_ws source = true -> forall i, find_indent_loop i source = None.
Proof.
  induction source as [|c rest IH]; simpl; intros H i; [reflexivity|].
  apply andb_prop in H as [Hc Hr]. rewrite Hc. now apply IH.
Qed.

Lemma find_indent_loop_first_line (source : string) :
  all_ws (first_line source) = false ->
  forall i, exists j,
    find_indent_loop i source = Some j /\
    find_indent_loop i (first_line source) = Some j /\
    j < i + String.length (first_line source).
Proof.
  induction source as [|c rest IH]; simpl; [discriminate|].
  destruct (Ascii.eqb c newline) eqn:Hc; simpl; [discriminate|].
  destruct (in_ws c) eqn:Hw; simpl; intros H i.
  - destruct (IH H (S i)) as (j & H1 & H2 & H3).
    exists j. repeat split; trivial. lia.
  - exists i. repeat split; trivial. lia.
Qed.

(** [C7] A source whose first character is not whitespace is returned
    unchanged by [strip_indent]: the indent level found is 0, every line
    keeps all its characters and joining the lines gives the text back. *)
Theorem strip_indent_unindented (c : ascii) (rest : string) :
  in_ws c = false ->
  strip_indent (String c rest) = Ok (String c rest).
Proof.
  intros Hc. unfold strip_indent, find_indent_level, strip_indent_at.
  cbn [find_indent_loop]. rewrite Hc.
  rewrite strip_lines_zero, join_split. reflexivity.
Qed.

Lemma strip_indent_unindented_witness :
  strip_indent "def foo():" = Ok "def foo():".
Proof. apply (strip_indent_unindented "d" "ef foo():"). reflexivity. Defined.

Lemma find_indent_loop_spec (source : string) :
  forall i,
    match find_indent_loop i source with
    | Some j =>
        exists k, j = i + k /\ k < String.length source /\
                  all_ws (String.substring 0 k source) = true /\
                  exists c, String.get k source = Some c /\ in_ws c = false
    | None => all_ws source = true
    end.
Proof.
  induction source as [|c rest IH]; intros i; simpl; [reflexivity|].
  destruct (in_ws c) eqn:Hc.
  - specialize (IH (S i)).
    destruct (find_indent_loop (S i) rest) as [j|].
    + destruct IH as (k & -> & Hk & Hws & c' & Hget & Hc').
      exists (S k). split; [lia|]. split; [simpl; lia|]. split.
      * cbn [String.substring all_ws]. now rewrite Hc, Hws.
      * exists c'. now split.
    + exact IH.
  - exists 0. split; [lia|]. split; [simpl; lia|]. split.
    + reflexivity.
    + exists c. now split.
Qed.

Lemma first_line_prefix (source : string) :
  no_newline source = true -> first_line source = source.
Proof.
  induction source as [|c rest IH]; [reflexivity|].
  simpl. intros H. apply andb_prop in H as [Hc Hr].
  apply negb_true_iff in Hc. rewrite Hc. f_equal. now apply IH.
Qed.

(** Past a first line of whitespace the scan goes over the line feed. *)
Lemma find_indent_loop_past_first_line (source : string) :
  all_ws (first_line source) = true -> no_newline source = false ->
  (String.length (first_line source) < String.length source) /\
  (forall i,
      match find_indent_loop i source with
      | Some j => i + String.length (first_line source) < j
      | None => True
      end).
Proof.
  induction source as [|c rest IH]; [discriminate|].
  cbn [first_line no_newline find_indent_loop].
  destruct (Ascii.eqb c newline) eqn:Hc.
  - intros _ _. apply Ascii.eqb_eq in Hc. subst c.
    split; [simpl; lia|]. intros i.
    change (in_ws newline) with true. cbv iota.
    pose proof (find_indent_loop_spec rest (S i)) as H.
    destruct (find_indent_loop (S i) rest) as [j|]; [|exact I].
    destruct H as (k & -> & _). simpl. lia.
  - cbn [negb andb all_ws]. intros H Hn.
    apply andb_prop in H as [Hw Hr]. rewrite Hw.
    destruct (IH Hr Hn) as [Hlen Hloop].
    split; [simpl; lia|]. intros i. specialize (Hloop (S i)).
    destruct (find_indent_loop (S i) rest) as [j|]; [|exact I].
    simpl. lia.
Qed.

(** [C8], as the code has it: the scan starts at the first character of
    the source and treats a line feed as whitespace.  When the first line
    holds a character that is not whitespace, the level is the column of
    the first such character (what stands before it on the line is
    whitespace) and depends on the first line only.  When the first line
    is whitespace, the scan runs on into the next lines, and the level is
    the length of the first line exactly when the source is that one
    line.  When the whole source is whitespace, the level is the length
    of the whole source. *)
Theorem find_indent_level_scan (source : string) :
  (all_ws (first_line source) = false ->
   find_indent_level source = find_indent_level (first_line source) /\
   find_indent_level source < String.length (first_line source) /\
   all_ws (String.substring 0 (find_indent_level source)
                            (first_line source)) = true /\
   exists c,
     String.get (find_indent_level source) (first_line source) = Some c /\
     in_ws c = false) /\
  (all_ws source = true ->
   find_indent_level source = String.length source) /\
  (all_ws (first_line source) = true ->
   (find_indent_level source = String.length (first_line source) <->
    no_newline source = true)).
Proof.
  assert (Hall : forall s, all_ws s = true ->
                           find_indent_level s = String.length s).
  { intros s H. unfold find_indent_level.
    now rewrite (find_indent_loop_all_ws _ H). }
  split; [|split]; [| exact (Hall source) |].
  - intros H. unfold find_indent_level.
    destruct (find_indent_loop_first_line _ H 0) as (j & H1 & H2 & H3).
    pose proof (find_indent_loop_spec (first_line source) 0) as Hs.
    rewrite H1, H2. rewrite H2 in Hs.
    destruct Hs as (k & -> & _ & Hws & c & Hget & Hc).
    split; [reflexivity|]. split; [exact H3|]. split; [exact Hws|].
    exists c. now split.
  - intros H. split.
    + intros E. destruct (no_newline source) eqn:Hn; [reflexivity|].
      destruct (find_indent_loop_past_first_line source H Hn) as [Hlen Hloop].
      specialize (Hloop 0). unfold find_indent_level in E.
      destruct (find_indent_loop 0 source) as [j|]; simpl in *; lia.
    + intros Hn. rewrite (first_line_prefix _ Hn) in H |- *.
      now apply Hall.
Qed.

Lemma find_indent_level_scan_witness :
  (find_indent_level "    def foo()" =
     find_indent_level (first_line "    def foo()") /\
   find_indent_level "    def foo()" < 13 /\
   String.get (find_indent_level "    def foo()") "    def foo()" =
     Some "d"%char) /\
  find_indent_level "    " = 4 /\
  find_indent_level "    " = String.length (first_line "    ").
Proof.
  split; [|split].
  - destruct (proj1 (find_indent_level_scan "    def foo()") eq_refl)
      as (H1 & H2 & _ & _).
    split; [exact H1|]. split; [exact H2|reflexivity].
  - apply (proj1 (proj2 (find_indent_level_scan "    "))). reflexivity.
  - apply (proj2 (proj2 (find_indent_level_scan "    ")) eq_refl).
    reflexivity.
Defined.

(** [C8], as the claim has it, fails: the first line of the two-line
    source below is one blank, yet the level found is 2, the column of
    the [x] on the second line; it is neither the length of the first
    line nor what the first line alone gives. *)
Lemma find_indent_level_past_first_line :
  let source := String " " (String newline "x") in
  all_ws (first_line source) = true /\
  String.length (first_line source) = 1 /\
  find_indent_level source = 2 /\
  find_indent_level source <> String.length (first_line source) /\
  find_indent_level source <> find_indent_level (first_line source).
Proof. cbv. repeat split; discriminate. Qed.

(** [C9] For every indent level and every source, [strip_indent] returns
    (no exception leaves it), the result has the lines of the source in
    order, each without its first [indent_level] characters, and a line
    of at most [indent_level] characters becomes the empty line. *)
Theorem strip_indent_at_total (indent_level : nat) (source : string) :
  exists out,
    strip_indent_at indent_level source = Ok out /\
    strip_indent source = strip_indent_at (find_indent_level source) source /\
    split_lines out =
      map (fun line =>
             if (String.length line <=? indent_level)%nat then EmptyString
             else drop_chars indent_level line)
          (split_lines source).
Proof.
  unfold strip_indent_at. rewrite strip_lines_map.
  eexists. split; [reflexivity|]. split; [reflexivity|].
  rewrite split_join.
  - apply map_ext. intros l.
    destruct (Nat.leb_spec (String.length l) indent_level) as [H|H];
      [now apply drop_chars_short|reflexivity].
  - destruct (split_lines source) eqn:Hs; [|discriminate].
    now apply split_lines_nonempty in Hs.
  - pose proof (split_lines_no_newline source) as H.
    induction H as [|l ls Hl Hls IH]; simpl; constructor; trivial.
    now apply drop_chars_no_newline.
Qed.

End TextFacts.

(** ** The rewrite, statically *)

Section RewriteFacts.

(** Induction over statements that reaches into the nested blocks. *)
Lemma stmt_nested_ind (P : stmt -> Prop) :
  (forall item,
      Forall P (stmt_body item) -> Forall P (stmt_orelse item) -> P item) ->
  forall item, P item.
Proof.
  intros H. fix IH 1. intros item. apply H.
  - destruct item; simpl; try constructor.
    + induction body0; constructor; auto.
    + induction body0; constructor; auto.
    + induction body0; constructor; auto.
  - destruct item; simpl; try constructor.
    + induction orelse; constructor; auto.
    + induction orelse; constructor; auto.
    + induction orelse; constructor; auto.
Qed.

(** The recursive call on a nested block, as the loop makes it. *)
Lemma fill_loop_nested (block : list stmt) (lineno : Z) :
  _fill_body_with_record block true (Some lineno) =
  Ok (_make_record_state_call_expr lineno :: fill_loop block).
Proof. reflexivity. Qed.

Lemma fill_item_nested (item : stmt) :
  has_nested item = true ->
  fill_item item =
  [with_blocks item
     (_make_record_state_call_expr (stmt_lineno item) ::
        fill_loop (stmt_body item))
     (_make_record_state_call_expr (stmt_lineno item) ::
        fill_loop (stmt_orelse item))].
Proof. destruct item; try discriminate; reflexivity. Qed.

Lemma fill_item_return (item : stmt) :
  is_return item = true ->
  fill_item item = _make_return_trace_call_exprs item.
Proof. destruct item; try discriminate; reflexivity. Qed.

Lemma fill_item_plain (item : stmt) :
  is_plain item = true ->
  fill_item item = [item; _make_record_state_call_expr (stmt_lineno item)].
Proof. destruct item; try discriminate; reflexivity. Qed.

(** One turn of the loop of [_fill_body_with_record], as the source
    writes it. *)
Lemma fill_loop_step (item : stmt) (rest : list stmt) :
  fill_loop (item :: rest) =
  if is_return item then
    _make_return_trace_call_exprs item ++ fill_loop rest
  else
    let new_body :=
      if has_body item then
        _make_record_state_call_expr (stmt_lineno item) ::
          fill_loop (stmt_body item)
      else stmt_body item in
    let new_orelse :=
      if has_orelse item then
        _make_record_state_call_expr (stmt_lineno item) ::
          fill_loop (stmt_orelse item)
      else stmt_orelse item in
    with_blocks item new_body new_orelse ::
    (if has_body item || has_orelse item then []
     else [_make_record_state_call_expr (stmt_lineno item)]) ++
    fill_loop rest.
Proof. destruct item; reflexivity. Qed.

Lemma fill_loop_app (b1 b2 : list stmt) :
  fill_loop (b1 ++ b2) = fill_loop b1 ++ fill_loop b2.
Proof.
  induction b1 as [|x b1 IH]; [reflexivity|].
  simpl. now rewrite IH, app_assoc.
Qed.

Lemma occurs_head (x : stmt) (rest : list stmt) : occurs [x] (x :: rest).
Proof. exact (occurs_here [x] rest). Qed.

Lemma occurs_app_r (seg b1 b2 : list stmt) :
  occurs seg b2 -> occurs seg (b1 ++ b2).
Proof.
  intros H. induction b1 as [|x b1 IH]; [exact H|].
  simpl. now apply occurs_later.
Qed.

Lemma occurs_nil_inv (seg : list stmt) :
  occurs seg [] -> seg = [].
Proof.
  intros H. remember [] as b eqn:Hb.
  destruct H; try discriminate.
  apply app_eq_nil in Hb as [_ Hr]. now rewrite Hr, app_nil_r.
Qed.

(** Whatever statement stands somewhere in the definition, the turn of
    the loop that handles it leaves its result at the same place of the
    rewritten definition. *)
Lemma occurs_fill (item : stmt) (b : list stmt) :
  occurs [item] b -> occurs (fill_item item) (fill_loop b).
Proof.
  intros H.
  induction H as [rest|x rest H IH|x rest H IH|x rest H IH].
  - simpl. apply occurs_here.
  - simpl. apply occurs_app_r. now apply IH.
  - destruct (has_nested x) eqn:Hn.
    + cbn [fill_loop]. rewrite (fill_item_nested _ Hn). simpl.
      apply occurs_body.
      destruct x; try discriminate; simpl in *; now apply occurs_later.
    + destruct x; try discriminate; simpl in H;
        apply occurs_nil_inv in H; discriminate.
  - destruct (has_nested x) eqn:Hn.
    + cbn [fill_loop]. rewrite (fill_item_nested _ Hn). simpl.
      apply occurs_orelse.
      destruct x; try discriminate; simpl in *; now apply occurs_later.
    + destruct x; try discriminate; simpl in H;
        apply occurs_nil_inv in H; discriminate.
Qed.

(** [C5] Wherever a conditional stands in the definition, the rewritten
    definition has, at the same place, the conditional whose alternative
    block starts with the emission call tagged with the conditional's own
    line number, followed by the rewritten alternative.  That first
    statement is the call of the record function on the number of the
    conditional's line and on [locals()]; it is the emission call of no
    other line, so the line of the first statement of the alternative
    plays no part. *)
Theorem orelse_uses_if_lineno
    (test : expr) (body orelse : list stmt) (lineno : Z)
    (original_body : list stmt) :
  occurs [If test body orelse lineno] original_body ->
  exists new_body new_orelse,
    occurs [If test new_body new_orelse lineno] (fill_loop original_body) /\
    _fill_body_with_record orelse true (Some lineno) = Ok new_orelse /\
    hd_error new_orelse = Some (_make_record_state_call_expr lineno) /\
    tl new_orelse = fill_loop orelse /\
    hd_error new_orelse =
      Some (Expr (Call (Name RECORD_FN_NAME Load)
                       [Num lineno; Call (Name "locals" Load) []]) 0) /\
    (forall l,
        hd_error new_orelse = Some (_make_record_state_call_expr l) ->
        l = lineno).
Proof.
  intros H. apply occurs_fill in H.
  eexists _, _. split; [exact H|].
  split; [reflexivity|]. split; [reflexivity|]. split; [reflexivity|].
  split; [reflexivity|].
  intros l E. cbn [hd_error] in E. unfold _make_record_state_call_expr in E.
  now injection E as ->.
Qed.

Lemma orelse_uses_if_lineno_witness :
  exists new_body new_orelse,
    occurs [If (Compare Tests.x NotEq (Num 3)) new_body new_orelse 5]
           (fill_loop (body Tests.test_conditional_else)) /\
    _fill_body_with_record [Tests.set "y" (Num 6) 8] true (Some 5%Z) =
      Ok new_orelse /\
    hd_error new_orelse = Some (_make_record_state_call_expr 5) /\
    tl new_orelse = fill_loop [Tests.set "y" (Num 6) 8] /\
    hd_error new_orelse =
      Some (Expr (Call (Name RECORD_FN_NAME Load)
                       [Num 5; Call (Name "locals" Load) []]) 0) /\
    hd_error new_orelse <> Some (_make_record_state_call_expr 8).
Proof.
  destruct (orelse_uses_if_lineno (Compare Tests.x NotEq (Num 3))
              [Tests.set "y" (Num 5) 6] [Tests.set "y" (Num 6) 8] 5
              (body Tests.test_conditional_else))
    as (new_body & new_orelse & H1 & H2 & H3 & H4 & H5 & H6).
  - apply occurs_later, occurs_later, occurs_head.
  - exists new_body, new_orelse.
    split; [exact H1|]. split; [exact H2|]. split; [exact H3|].
    split; [exact H4|]. split; [exact H5|].
    intros E. apply H6 in E. discriminate.
Defined.

Lemma strip_generated_app (b1 b2 : list stmt) :
  strip_generated (b1 ++ b2) = strip_generated b1 ++ strip_generated b2.
Proof.
  induction b1 as [|x b1 IH]; [reflexivity|].
  simpl. destruct (generated x); simpl; now rewrite IH.
Qed.

Lemma parsed_stmt_lineno (item : stmt) :
  parsed_stmt item = true -> (0 < stmt_lineno item)%Z.
Proof.
  intros H. destruct item; cbn [parsed_stmt stmt_lineno] in H |- *;
    apply andb_prop in H as [H _]; now apply Z.ltb_lt in H.
Qed.

Lemma parsed_not_generated (item : stmt) :
  parsed_stmt item = true -> generated item = false.
Proof.
  intros H. apply parsed_stmt_lineno in H. unfold generated.
  apply Z.eqb_neq. lia.
Qed.

Lemma parsed_stmt_blocks (item : stmt) :
  parsed_stmt item = true ->
  parsed_block (stmt_body item) = true /\
  parsed_block (stmt_orelse item) = true.
Proof.
  intros H. destruct item; cbn [parsed_stmt] in H;
    apply andb_prop in H as [_ H]; try (split; reflexivity);
    apply andb_prop in H as [Hb Ho]; split; assumption.
Qed.

Lemma strip_stmt_blocks (item : stmt) :
  strip_stmt item =
  with_blocks item (strip_generated (stmt_body item))
                   (strip_generated (stmt_orelse item)).
Proof. destruct item; reflexivity. Qed.

Lemma drop_returns_stmt_blocks (item : stmt) :
  drop_returns_stmt item =
  with_blocks item (drop_returns (stmt_body item))
                   (drop_returns (stmt_orelse item)).
Proof. destruct item; reflexivity. Qed.

Lemma strip_fill_item (item : stmt) :
  parsed_stmt item = true ->
  strip_generated (fill_item item) =
  if is_return item then [] else [drop_returns_stmt item].
Proof.
  induction item as [item IHb IHo] using stmt_nested_ind.
  assert (Hblock : forall b,
             Forall (fun x => parsed_stmt x = true ->
                              strip_generated (fill_item x) =
                              if is_return x then []
                              else [drop_returns_stmt x]) b ->
             parsed_block b = true ->
             strip_generated (fill_loop b) = drop_returns b).
  { clear. induction b as [|x b IH]; intros HF Hp; [reflexivity|].
    inversion HF as [|? ? Hx Hb]; subst.
    simpl in Hp. apply andb_prop in Hp as [Hpx Hpb].
    cbn [fill_loop drop_returns]. rewrite strip_generated_app.
    rewrite (Hx Hpx), (IH Hb Hpb). now destruct (is_return x). }
  intros Hp.
  pose proof (parsed_not_generated _ Hp) as Hg.
  destruct (parsed_stmt_blocks _ Hp) as [Hpb Hpo].
  pose proof (Hblock _ IHb Hpb) as Eb.
  pose proof (Hblock _ IHo Hpo) as Eo.
  destruct (is_return item) eqn:Hr.
  - rewrite (fill_item_return _ Hr). reflexivity.
  - destruct (has_nested item) eqn:Hn.
    + rewrite (fill_item_nested _ Hn).
      cbn [strip_generated].
      replace (generated (with_blocks item _ _)) with (generated item)
        by (destruct item; reflexivity).
      rewrite Hg, strip_stmt_blocks, drop_returns_stmt_blocks.
      destruct item; try discriminate; cbn [with_blocks stmt_body stmt_orelse] in *;
        cbn [strip_generated generated _make_record_state_call_expr stmt_lineno Z.eqb];
        now rewrite Eb, Eo.
    + assert (Hpl : is_plain item = true).
      { unfold is_plain. fold (has_nested item). now rewrite Hr, Hn. }
      rewrite (fill_item_plain _ Hpl). cbn [strip_generated]. rewrite Hg.
      replace (generated (_make_record_state_call_expr (stmt_lineno item)))
        with true by reflexivity.
      rewrite strip_stmt_blocks, drop_returns_stmt_blocks.
      destruct item; try discriminate; reflexivity.
Qed.

Lemma strip_fill_loop (b : list stmt) :
  parsed_block b = true ->
  strip_generated (fill_loop b) = drop_returns b.
Proof.
  induction b as [|x b IH]; [reflexivity|].
  intros Hp. simpl in Hp. apply andb_prop in Hp as [Hpx Hpb].
  cbn [fill_loop drop_returns]. rewrite strip_generated_app.
  rewrite (strip_fill_item _ Hpx), (IH Hpb). now destruct (is_return x).
Qed.

Lemma is_emission_call_generated (item : stmt) :
  is_emission_call item = true -> generated item = true.
Proof.
  intros H. destruct item; try discriminate.
  unfold is_emission_call in H. unfold generated. cbn [stmt_lineno].
  repeat match type of H with
         | context [match ?e with _ => _ end] =>
             destruct e; try discriminate
         end.
  reflexivity.
Qed.

Lemma emission_calls_fill_item (item : stmt) :
  parsed_stmt item = true ->
  List.length (emission_calls (fill_item item)) =
  if has_nested item then 0 else 1.
Proof.
  intros Hp. pose proof (parsed_not_generated _ Hp) as Hg.
  assert (He : is_emission_call item = false).
  { destruct (is_emission_call item) eqn:He; [|reflexivity].
    apply is_emission_call_generated in He. congruence. }
  destruct (is_return item) eqn:Hr.
  - rewrite (fill_item_return _ Hr).
    destruct item; try discriminate; reflexivity.
  - destruct (has_nested item) eqn:Hn.
    + rewrite (fill_item_nested _ Hn).
      destruct item; try discriminate; reflexivity.
    + assert (Hpl : is_plain item = true).
      { unfold is_plain. fold (has_nested item). now rewrite Hr, Hn. }
      rewrite (fill_item_plain _ Hpl). unfold emission_calls.
      cbn [filter]. rewrite He. reflexivity.
Qed.

Lemma emission_calls_fill_loop (b : list stmt) :
  parsed_block b = true ->
  List.length (emission_calls (fill_loop b)) =
  List.length (filter (fun x => negb (has_nested x)) b).
Proof.
  induction b as [|x b IH]; [reflexivity|].
  intros Hp. simpl in Hp. apply andb_prop in Hp as [Hpx Hpb].
  cbn [fill_loop filter].
  replace (emission_calls (fill_item x ++ fill_loop b))
    with (emission_calls (fill_item x) ++ emission_calls (fill_loop b))
    by (unfold emission_calls; now rewrite filter_app).
  rewrite length_app, (emission_calls_fill_item _ Hpx), (IH Hpb).
  now destruct (has_nested x).
Qed.

Lemma only_inserts_fill_item (item : stmt) :
  forall old new,
    only_inserts old new -> only_inserts (item :: old) (fill_item item ++ new).
Proof.
  induction item as [item IHb IHo] using stmt_nested_ind.
  assert (Hblock : forall b,
             Forall (fun x => forall old new,
                         only_inserts old new ->
                         only_inserts (x :: old) (fill_item x ++ new)) b ->
             only_inserts b (fill_loop b)).
  { clear. induction b as [|x b IH]; intros HF; [constructor|].
    inversion HF as [|? ? Hx Hb]; subst.
    cbn [fill_loop]. apply Hx. now apply IH. }
  intros old new H.
  destruct (is_return item) eqn:Hr.
  - destruct item; try discriminate.
    cbn [fill_item]. unfold _make_return_trace_call_exprs.
    cbn [stmt_value stmt_lineno app]. now apply inserts_return.
  - destruct (has_nested item) eqn:Hn.
    + rewrite (fill_item_nested _ Hn). cbn [app].
      apply inserts_nested; trivial; apply inserts_call; now apply Hblock.
    + assert (Hpl : is_plain item = true).
      { unfold is_plain. fold (has_nested item). now rewrite Hr, Hn. }
      rewrite (fill_item_plain _ Hpl). cbn [app].
      apply inserts_keep; [exact Hpl|]. now apply inserts_call.
Qed.

Lemma only_inserts_fill_loop (b : list stmt) : only_inserts b (fill_loop b).
Proof.
  induction b as [|x b IH]; [constructor|].
  cbn [fill_loop]. now apply only_inserts_fill_item.
Qed.

(** [C6] The rewritten block is the original block with statements
    inserted: every statement stands in it in its order, a statement with
    nested blocks with its blocks rewritten in the same way, a [return]
    as the four statements that replace it where it stood, and what is
    inserted between them are emission calls.  A statement with nested
    blocks is followed by the rewrite of what followed it: no emission
    call stands between them.  Each of its blocks is rewritten with one
    emission call in front, and at the level of a rewritten block the
    emission calls are the one in front and one for each statement
    without nested blocks.  Taking the nodes the rewrite built out of the
    rewritten block gives the original block back, [return] statements
    apart. *)
Theorem fill_loop_only_inserts (original_body : list stmt) :
  parsed_block original_body = true ->
  only_inserts original_body (fill_loop original_body) /\
  strip_generated (fill_loop original_body) = drop_returns original_body /\
  (forall item rest,
      has_nested item = true ->
      fill_loop (item :: rest) =
      with_blocks item
        (_make_record_state_call_expr (stmt_lineno item) ::
           fill_loop (stmt_body item))
        (_make_record_state_call_expr (stmt_lineno item) ::
           fill_loop (stmt_orelse item)) :: fill_loop rest) /\
  (forall lineno,
      exists new_body,
        _fill_body_with_record original_body true (Some lineno) =
          Ok new_body /\
        hd_error new_body = Some (_make_record_state_call_expr lineno) /\
        List.length (emission_calls new_body) =
        1 + List.length (filter (fun x => negb (has_nested x)) original_body)).
Proof.
  intros Hp. split; [apply only_inserts_fill_loop|].
  split; [now apply strip_fill_loop|]. split.
  - intros item rest Hn. cbn [fill_loop].
    now rewrite (fill_item_nested _ Hn).
  - intros lineno. eexists. split; [reflexivity|]. split; [reflexivity|].
    unfold emission_calls. cbn [filter].
    replace (is_emission_call (_make_record_state_call_expr lineno))
      with true by reflexivity.
    cbn [List.length]. change (1 + ?n) with (S n). f_equal.
    now apply emission_calls_fill_loop.
Qed.

Lemma fill_loop_only_inserts_witness :
  let original_body :=
    [Tests.set "x" (Num 3) 3;
     If (Compare Tests.x Ast.Eq (Num 3)) [Return (Some Tests.x) 5] [] 4;
     Return (Some (Num 0)) 6] in
  only_inserts original_body (fill_loop original_body) /\
  strip_generated (fill_loop original_body) = drop_returns original_body /\
  fill_loop original_body =
    [Tests.set "x" (Num 3) 3;
     _make_record_state_call_expr 3;
     If (Compare Tests.x Ast.Eq (Num 3))
        [_make_record_state_call_expr 4;
         Assign [Name RETVAL_NAME Store] (Some Tests.x) 0;
         _make_record_state_call_expr 5;
         _make_dump_state_call_expr;
         Return (Some (Name RETVAL_NAME Load)) 0]
        [_make_record_state_call_expr 4] 4;
     Assign [Name RETVAL_NAME Store] (Some (Num 0)) 0;
     _make_record_state_call_expr 6;
     _make_dump_state_call_expr;
     Return (Some (Name RETVAL_NAME Load)) 0].
Proof.
  intros original_body.
  destruct (fill_loop_only_inserts original_body eq_refl) as (H1 & H2 & _).
  split; [exact H1|]. split; [exact H2|reflexivity].
Defined.

End RewriteFacts.

(** ** Running the rewritten tree *)

Lemma deepcopy_id : forall v, deepcopy v = v.
Proof.
  fix IH 1. intros [ | n | b | items | items]; simpl; try reflexivity.
  - f_equal. induction items as [|x xs IHxs]; simpl; [reflexivity|].
    now rewrite (IH x), IHxs.
  - f_equal. induction items as [|[k x] xs IHxs]; simpl; [reflexivity|].
    now rewrite (IH x), IHxs.
Qed.

Lemma expr_nested_ind (P : expr -> Prop) :
  (forall id ctx, P (Name id ctx)) ->
  (forall n, P (Num n)) ->
  (forall l op r, P l -> P r -> P (BinOp l op r)) ->
  (forall l op r, P l -> P r -> P (Compare l op r)) ->
  (forall func args, P func -> Forall P args -> P (Call func args)) ->
  forall e, P e.
Proof.
  intros Hn Hc Hb Hcmp Hcall. fix IH 1. intros [id ctx|n|l op r|l op r|func args].
  - apply Hn.
  - apply Hc.
  - apply Hb; apply IH.
  - apply Hcmp; apply IH.
  - apply Hcall; [apply IH|].
    induction args as [|a args IHa]; constructor; [apply IH|exact IHa].
Qed.

Lemma lookup_update_eq {A : Type} (id : string) (v : A) (d : list (string * A)) :
  lookup id (update id v d) = Some v.
Proof.
  induction d as [|[k x] d IH]; simpl.
  - now rewrite String.eqb_refl.
  - destruct (String.eqb k id) eqn:E; simpl; rewrite E; [reflexivity|exact IH].
Qed.

Lemma lookup_update_ne {A : Type} (id id' : string) (v : A)
    (d : list (string * A)) :
  id <> id' -> lookup id' (update id v d) = lookup id' d.
Proof.
  intros Hne. induction d as [|[k x] d IH]; simpl.
  - destruct (String.eqb_spec id id'); [contradiction|reflexivity].
  - destruct (String.eqb_spec k id) as [->|Hk]; simpl.
    + destruct (String.eqb_spec id id'); [contradiction|reflexivity].
    + destruct (String.eqb k id'); [reflexivity|exact IH].
Qed.

Lemma unshadowed_lookup (lc : locals) (id : string) :
  unshadowed lc = true -> is_reserved id = true -> lookup id lc = None.
Proof.
  intros Hu Hr. induction lc as [|[k x] lc IH]; [reflexivity|].
  simpl in *. apply andb_prop in Hu as [Hk Hu].
  destruct (String.eqb_spec k id) as [->|_].
  - rewrite Hr in Hk. discriminate.
  - now apply IH.
Qed.

Lemma unshadowed_update (lc : locals) (id : string) (v : value) :
  unshadowed lc = true -> is_reserved id = false ->
  unshadowed (update id v lc) = true.
Proof.
  intros Hu Hr. induction lc as [|[k x] lc IH]; simpl in *.
  - now rewrite Hr.
  - apply andb_prop in Hu as [Hk Hu].
    destruct (String.eqb k id); simpl; rewrite Hk; [exact Hu|now apply IH].
Qed.

Lemma is_reserved_false (id : string) :
  is_reserved id = false ->
  id <> RECORD_FN_NAME /\ id <> DUMP_FN_NAME /\ id <> "locals".
Proof.
  unfold is_reserved, reserved. cbn [existsb].
  intros H. repeat (apply orb_false_elim in H as [? H]).
  repeat split; intros ->; rewrite String.eqb_refl in *; discriminate.
Qed.

Lemma eval_call (f : string) (ctx : expr_context) (args : list expr)
    (lc : locals) (w : world) :
  eval (Call (Name f ctx) args) lc w =
  match lookup f lc with
  | Some _ => Raise TypeError
  | None =>
      match resolve f w with
      | None => Raise NameError
      | Some b =>
          bind (eval_args lc args w)
               (fun r => match r with (vs, w1) => apply_builtin b vs lc w1 end)
      end
  end.
Proof. reflexivity. Qed.

(** An expression without reserved names reads the local scope only and
    leaves the world as it is. *)
Lemma eval_clean (e : expr) :
  clean_expr e = true ->
  forall lc, exists r : py_result value,
    forall w, env w = runtime_env ->
      eval e lc w = match r with
                    | Ok v => Ok (v, w)
                    | Raise x => Raise x
                    end.
Proof.
  induction e as [id ctx|n|l op r IHl IHr|l op r IHl IHr|func args IHf IHa]
    using expr_nested_ind; intros Hc lc.
  - simpl. destruct (lookup id lc) as [v|].
    + now exists (Ok v).
    + now exists (Raise NameError).
  - now exists (Ok (VInt n)).
  - simpl in Hc. apply andb_prop in Hc as [Hl Hr].
    destruct (IHl Hl lc) as [rl El], (IHr Hr lc) as [rr Er].
    exists (bind rl (fun a => bind rr (fun b => binop op a b))).
    intros w Hw. simpl. rewrite (El w Hw).
    destruct rl as [a|x]; simpl; [|reflexivity].
    rewrite (Er w Hw). destruct rr as [b|x]; simpl; [|reflexivity].
    now destruct (binop op a b).
  - simpl in Hc. apply andb_prop in Hc as [Hl Hr].
    destruct (IHl Hl lc) as [rl El], (IHr Hr lc) as [rr Er].
    exists (bind rl (fun a => bind rr (fun b => compare op a b))).
    intros w Hw. simpl. rewrite (El w Hw).
    destruct rl as [a|x]; simpl; [|reflexivity].
    rewrite (Er w Hw). destruct rr as [b|x]; simpl; [|reflexivity].
    now destruct (compare op a b).
  - cbn [clean_expr] in Hc. apply andb_prop in Hc as [Hf Hargs].
    assert (Hvs : exists ra : py_result (list value),
               forall w, env w = runtime_env ->
                 eval_args lc args w = match ra with
                                       | Ok vs => Ok (vs, w)
                                       | Raise x => Raise x
                                       end).
    { clear IHf Hf. induction IHa as [|a args Ha _ IH].
      - now exists (Ok []).
      - apply andb_prop in Hargs as [Hca Hcargs].
        destruct (Ha Hca lc) as [r1 E1], (IH Hcargs) as [r2 E2].
        exists (bind r1 (fun v => bind r2 (fun vs => Ok (v :: vs)))).
        intros w Hw. simpl. rewrite (E1 w Hw).
        destruct r1 as [v|x]; simpl; [|reflexivity].
        fold (eval_args lc args). rewrite (E2 w Hw). now destruct r2. }
    destruct Hvs as [ra Ea].
    destruct func as [f ctx| | | |];
      try (exists (Raise TypeError); reflexivity).
    cbn [clean_expr] in Hf. apply negb_true_iff in Hf.
    destruct (is_reserved_false _ Hf) as (H1 & H2 & H3).
    destruct (lookup f lc) eqn:Hlk.
    + exists (Raise TypeError). intros w Hw. rewrite eval_call, Hlk. reflexivity.
    + destruct (String.eqb f "range") eqn:Hrange.
      * exists (bind ra (fun vs => match vs with
                                    | [VInt n] => Ok (VList (range n))
                                    | _ => Raise TypeError
                                    end)).
        intros w Hw. rewrite eval_call, Hlk. unfold resolve. rewrite Hw.
        unfold runtime_env. cbn [lookup].
        destruct (String.eqb_spec RECORD_FN_NAME f); [congruence|].
        destruct (String.eqb_spec DUMP_FN_NAME f); [congruence|].
        destruct (String.eqb_spec f "locals"); [congruence|].
        rewrite Hrange, (Ea w Hw).
        destruct ra as [vs|x]; simpl; [|reflexivity].
        destruct vs as [|[] [|]]; reflexivity.
      * exists (Raise NameError).
        intros w Hw. rewrite eval_call, Hlk. unfold resolve. rewrite Hw.
        unfold runtime_env. cbn [lookup].
        destruct (String.eqb_spec RECORD_FN_NAME f); [congruence|].
        destruct (String.eqb_spec DUMP_FN_NAME f); [congruence|].
        destruct (String.eqb_spec f "locals"); [congruence|].
        now rewrite Hrange.
Qed.


(** Unfolding equations of the interpreter. *)
Lemma exec_block_cons (n : nat) (x : stmt) (rest : list stmt)
    (lc : locals) (w : world) :
  exec_block n (x :: rest) lc w =
  match exec_stmt n x lc w with
  | Normal lc1 w1 => exec_block n rest lc1 w1
  | o => o
  end.
Proof. reflexivity. Qed.

Lemma exec_block_app (n : nat) (b1 b2 : list stmt) :
  forall lc w,
    exec_block n (b1 ++ b2) lc w =
    match exec_block n b1 lc w with
    | Normal lc1 w1 => exec_block n b2 lc1 w1
    | o => o
    end.
Proof.
  induction b1 as [|x b1 IH]; intros lc w; [reflexivity|].
  rewrite <- app_comm_cons, !exec_block_cons.
  destruct (exec_stmt n x lc w); try reflexivity. apply IH.
Qed.

Lemma exec_block_single (n : nat) (x : stmt) (lc : locals) (w : world) :
  exec_block n [x] lc w = exec_stmt n x lc w.
Proof. rewrite exec_block_cons. now destruct (exec_stmt n x lc w). Qed.

Lemma exec_stmt_if (n : nat) test body orelse l (lc : locals) (w : world) :
  exec_stmt (S n) (If test body orelse l) lc w =
  match eval test lc w with
  | Raise x => Exc x w
  | Ok (c, w1) =>
      if truthy c then exec_block n body lc w1 else exec_block n orelse lc w1
  end.
Proof. reflexivity. Qed.

Lemma exec_stmt_while (n : nat) test body orelse l (lc : locals) (w : world) :
  exec_stmt (S n) (While test body orelse l) lc w =
  match eval test lc w with
  | Raise x => Exc x w
  | Ok (c, w1) =>
      if truthy c then
        match exec_block n body lc w1 with
        | Normal lc2 w2 | Cont lc2 w2 =>
            exec_stmt n (While test body orelse l) lc2 w2
        | Brk lc2 w2 => Normal lc2 w2
        | o => o
        end
      else exec_block n orelse lc w1
  end.
Proof. reflexivity. Qed.

Lemma exec_stmt_for (n : nat) id ctx iter body orelse l
    (lc : locals) (w : world) :
  exec_stmt (S n) (For (Name id ctx) iter body orelse l) lc w =
  match eval iter lc w with
  | Raise x => Exc x w
  | Ok (VList items, w1) => for_loop n id body orelse items lc w1
  | Ok (_, w1) => Exc TypeError w1
  end.
Proof. reflexivity. Qed.

Lemma eval_record_call (l : Z) (lc : locals) (w : world) (data : list entry) :
  unshadowed lc = true -> env w = runtime_env -> store w = Some data ->
  eval (Call (Name RECORD_FN_NAME Load) [Num l; Call (Name "locals" Load) []])
       lc w =
  Ok (VNone, set_store w (Some (data ++ [(VInt l, VDict lc)]))).
Proof.
  intros Hu He Hs.
  rewrite eval_call, (unshadowed_lookup lc RECORD_FN_NAME Hu eq_refl).
  unfold resolve. rewrite He.
  change (lookup RECORD_FN_NAME runtime_env) with (Some BRecord).
  cbn [eval_args eval bind].
  rewrite (unshadowed_lookup lc "locals" Hu eq_refl).
  unfold resolve. rewrite He.
  change (lookup "locals" runtime_env) with (@None builtin).
  cbn. unfold _record_state_fn_hidden_123. rewrite Hs.
  now rewrite (deepcopy_id (VDict lc)).
Qed.

Lemma exec_record (n : nat) (l : Z) (lc : locals) (w : world)
    (data : list entry) :
  unshadowed lc = true -> env w = runtime_env -> store w = Some data ->
  exec_stmt (S n) (_make_record_state_call_expr l) lc w =
  Normal lc (set_store w (Some (data ++ [(VInt l, VDict lc)]))).
Proof.
  intros Hu He Hs. unfold _make_record_state_call_expr.
  cbn [exec_stmt]. now rewrite (eval_record_call l lc w data Hu He Hs).
Qed.

Lemma exec_dump (n : nat) (lc : locals) (w : world) :
  unshadowed lc = true -> env w = runtime_env ->
  exec_stmt (S n) _make_dump_state_call_expr lc w = Normal lc (flushed w).
Proof.
  intros Hu He. unfold _make_dump_state_call_expr. cbn [exec_stmt].
  rewrite eval_call, (unshadowed_lookup lc DUMP_FN_NAME Hu eq_refl).
  unfold resolve. rewrite He.
  change (lookup DUMP_FN_NAME runtime_env) with (Some BDump).
  reflexivity.
Qed.

Lemma quiet_refl (w : world) : quiet w w.
Proof. repeat split. exists []. now rewrite app_nil_r. Qed.

Lemma quiet_trans (w1 w2 w3 : world) : quiet w1 w2 -> quiet w2 w3 -> quiet w1 w3.
Proof.
  intros (E1 & S1 & F1 & o1 & O1) (E2 & S2 & F2 & o2 & O2).
  repeat split; try congruence.
  exists (o1 ++ o2). now rewrite O2, O1, app_assoc.
Qed.

Lemma quiet_put (w : world) (o : output) : quiet w (put w o).
Proof. repeat split. now exists [o]. Qed.

Lemma sim_put (w w' : world) (o : output) : sim w w' -> sim (put w o) (put w' o).
Proof.
  intros (E1 & E2 & F & O & extra & S). unfold sim, put, trace in *. simpl.
  repeat split; try assumption; try congruence.
  now exists extra.
Qed.

Lemma sim_start (w : world) (data : list entry) :
  env w = runtime_env -> store w = Some data -> sim w w.
Proof.
  intros He Hs. repeat split; trivial.
  exists []. unfold trace. now rewrite Hs, app_nil_r.
Qed.

(** The emission call runs in the rewritten run whatever the statements
    before it did, and leaves the two runs related. *)
Lemma sim_record (n : nat) (l : Z) (lc : locals) (w w' : world) :
  unshadowed lc = true -> sim w w' ->
  exists w'', exec_stmt (S n) (_make_record_state_call_expr l) lc w' =
              Normal lc w'' /\ sim w w'' /\
              store w'' = Some (trace w' ++ [(line l, VDict lc)]).
Proof.
  intros Hu (E1 & E2 & F & O & extra & S).
  eexists. split; [apply (exec_record n l lc w' _ Hu E2 S)|].
  unfold sim, set_store, trace. simpl. rewrite S. repeat split; trivial.
  exists (extra ++ [(VInt l, VDict lc)]). now rewrite app_assoc.
Qed.

Lemma assign_targets_unshadowed (targets : list expr) (v : value) :
  forallb clean_expr targets = true ->
  forall lc lc1,
    unshadowed lc = true -> assign_targets targets v lc = Ok lc1 ->
    unshadowed lc1 = true.
Proof.
  induction targets as [|t targets IH]; simpl; intros Hc lc lc1 Hu H.
  - now injection H as <-.
  - apply andb_prop in Hc as [Ht Hc].
    destruct t as [id ctx| | | |]; try discriminate.
    simpl in Ht. apply negb_true_iff in Ht.
    apply (IH Hc _ _ (unshadowed_update lc id v Hu Ht) H).
Qed.

(** A statement without nested blocks and without reserved names does
    the same in related worlds, whatever the fuel, and keeps them
    related. *)
Lemma plain_sim (n m : nat) (item : stmt) (lc : locals) (w w' : world) :
  is_plain item = true -> clean_stmt item = true ->
  unshadowed lc = true -> sim w w' ->
  match exec_stmt (S n) item lc w with
  | Normal lc1 w1 =>
      unshadowed lc1 = true /\ quiet w w1 /\
      exists w1', exec_stmt (S m) item lc w' = Normal lc1 w1' /\ sim w1 w1' /\
                  quiet w' w1'
  | Brk lc1 w1 =>
      unshadowed lc1 = true /\ quiet w w1 /\
      exists w1', exec_stmt (S m) item lc w' = Brk lc1 w1' /\ sim w1 w1' /\
                  quiet w' w1'
  | Cont lc1 w1 =>
      unshadowed lc1 = true /\ quiet w w1 /\
      exists w1', exec_stmt (S m) item lc w' = Cont lc1 w1' /\ sim w1 w1' /\
                  quiet w' w1'
  | Exc e w1 =>
      quiet w w1 /\
      exists w1', exec_stmt (S m) item lc w' = Exc e w1' /\ sim w1 w1' /\
                  quiet w' w1'
  | Ret _ _ _ | OutOfFuel => False
  end.
Proof.
  intros Hp Hc Hu Hs.
  pose proof Hs as (E1 & E2 & _).
  pose proof (quiet_refl w) as Hq.
  pose proof (quiet_refl w') as Hq'.
  destruct item as [targets val l|target op val l|val l|val l|l|l|l|val l
                   |test body orelse l|test body orelse l
                   |target iter body orelse l];
    try discriminate; cbn [exec_stmt clean_stmt] in *.
  - (* Assign *)
    apply andb_prop in Hc as [Ht Hv].
    destruct val as [e|]; [|now eauto 10].
    destruct (eval_clean e Hv lc) as [r Er].
    rewrite (Er w E1), (Er w' E2). destruct r as [v|x]; [|now eauto 10].
    destruct (assign_targets targets v lc) as [lc1|x] eqn:Ha; [|now eauto 10].
    split; [|now eauto 10].
    eapply assign_targets_unshadowed; eassumption.
  - (* AugAssign *)
    apply andb_prop in Hc as [Ht Hv].
    destruct target as [id ctx| | | |]; try now eauto 10.
    destruct (lookup id lc) as [a|]; [|now eauto 10].
    destruct (eval_clean val Hv lc) as [r Er].
    rewrite (Er w E1), (Er w' E2). destruct r as [v|x]; [|now eauto 10].
    destruct (binop op a v) as [v1|x]; [|now eauto 10].
    simpl in Ht. apply negb_true_iff in Ht.
    split; [now apply unshadowed_update|now eauto 10].
  - (* Expr *)
    destruct (eval_clean val Hc lc) as [r Er].
    rewrite (Er w E1), (Er w' E2). destruct r as [v|x]; now eauto 10.
  - (* Print *)
    destruct (eval_clean val Hc lc) as [r Er].
    rewrite (Er w E1), (Er w' E2). destruct r as [v|x]; [|now eauto 10].
    split; [assumption|]. split; [apply quiet_put|].
    eexists. split; [reflexivity|]. split; [now apply sim_put|apply quiet_put].
  - now eauto 10.
  - now eauto 10.
  - now eauto 10.
Qed.

Lemma outcome_rel_quiet (w w1 : world) (o o' : outcome) :
  quiet w w1 -> outcome_rel w1 o o' -> outcome_rel w o o'.
Proof.
  intros Hq. destruct o; simpl; trivial.
  - intros (w1' & -> & Hu & Hq1 & Hs). eauto 8 using quiet_trans.
  - intros (w1' & -> & Hu & Hq1 & Hs). eauto 8 using quiet_trans.
  - intros (w1' & -> & Hu & Hq1 & Hs). eauto 8 using quiet_trans.
  - intros (w1' & -> & Hq1 & Hs & Hl). eauto 8 using quiet_trans.
  - intros (w1' & -> & Hq1 & Hs). eauto 8 using quiet_trans.
Qed.

Lemma compile_ok_nested (item : stmt) :
  has_nested item = true ->
  compile_ok item =
  compile_block_ok (stmt_body item) && compile_block_ok (stmt_orelse item).
Proof. destruct item; try discriminate; reflexivity. Qed.

Lemma clean_stmt_nested (item : stmt) :
  has_nested item = true -> clean_stmt item = true ->
  clean_block (stmt_body item) = true /\
  clean_block (stmt_orelse item) = true.
Proof.
  destruct item; try discriminate; intros _ H; cbn [clean_stmt] in H;
    apply andb_prop in H as [H Ho]; apply andb_prop in H as [_ Hb];
    split; assumption.
Qed.

Lemma compile_block_ok_app (b1 b2 : list stmt) :
  compile_block_ok (b1 ++ b2) = compile_block_ok b1 && compile_block_ok b2.
Proof. apply forallb_app. Qed.

Section SimStep.

Variable n : nat.

(** The induction hypothesis of [sim_stmt]: statements run with [n]. *)
Hypothesis IH :
  forall item lc w w',
    clean_stmt item = true ->
    compile_block_ok (fill_item item) = true ->
    unshadowed lc = true -> sim w w' ->
    outcome_rel w (exec_stmt n item lc w)
                  (exec_block (S n) (fill_item item) lc w').

Lemma sim_block (b : list stmt) :
  forall lc w w',
    clean_block b = true ->
    compile_block_ok (fill_loop b) = true ->
    unshadowed lc = true -> sim w w' ->
    outcome_rel w (exec_block n b lc w)
                  (exec_block (S n) (fill_loop b) lc w').
Proof.
  induction b as [|x rest IHb]; intros lc w w' Hc Hk Hu Hs.
  - simpl. exists w'. auto using quiet_refl.
  - simpl in Hc. apply andb_prop in Hc as [Hcx Hcr].
    cbn [fill_loop] in Hk. rewrite compile_block_ok_app in Hk.
    apply andb_prop in Hk as [Hkx Hkr].
    cbn [fill_loop]. rewrite exec_block_cons, exec_block_app.
    pose proof (IH x lc w w' Hcx Hkx Hu Hs) as Hx.
    destruct (exec_stmt n x lc w) as [lc1 w1|lc1 w1|lc1 w1|v lc1 w1|e w1|];
      simpl in Hx |- *; trivial.
    + destruct Hx as (w1' & -> & Hu1 & Hq & Hs1).
      apply (outcome_rel_quiet _ _ _ _ Hq). now apply IHb.
    + destruct Hx as (w1' & -> & ?). eauto.
    + destruct Hx as (w1' & -> & ?). eauto.
    + destruct Hx as (w1' & -> & ?). eauto.
    + destruct Hx as (w1' & -> & ?). eauto.
Qed.

(** A nested block: the emission call in front, then the block. *)
Lemma sim_nested (l : Z) (b : list stmt) (lc : locals) (w w' : world) :
  clean_block b = true ->
  compile_block_ok (fill_loop b) = true ->
  unshadowed lc = true -> sim w w' ->
  outcome_rel w (exec_block n b lc w)
    (exec_block (S n) (_make_record_state_call_expr l :: fill_loop b) lc w').
Proof.
  intros Hc Hk Hu Hs. rewrite exec_block_cons.
  destruct (sim_record n l lc w w' Hu Hs) as (w'' & -> & Hs' & _).
  now apply sim_block.
Qed.

Lemma sim_for (l : Z) (id : string) (body orelse : list stmt)
    (items : list value) :
  is_reserved id = false ->
  clean_block body = true -> compile_block_ok (fill_loop body) = true ->
  clean_block orelse = true -> compile_block_ok (fill_loop orelse) = true ->
  forall lc w w',
    unshadowed lc = true -> sim w w' ->
    outcome_rel w
      (for_loop n id body orelse items lc w)
      (for_loop (S n) id
         (_make_record_state_call_expr l :: fill_loop body)
         (_make_record_state_call_expr l :: fill_loop orelse) items lc w').
Proof.
  intros Hid Hcb Hkb Hco Hko.
  induction items as [|v rest IHi]; intros lc w w' Hu Hs.
  - cbn [for_loop]. now apply sim_nested.
  - cbn [for_loop].
    pose proof (sim_nested l body (update id v lc) w w' Hcb Hkb
                  (unshadowed_update lc id v Hu Hid) Hs) as Hx.
    destruct (exec_block n body (update id v lc) w)
      as [lc1 w1|lc1 w1|lc1 w1|v1 lc1 w1|e w1|];
      simpl in Hx |- *; trivial.
    + destruct Hx as (w1' & -> & Hu1 & Hq & Hs1).
      apply (outcome_rel_quiet _ _ _ _ Hq). now apply IHi.
    + destruct Hx as (w1' & -> & ?). eauto.
    + destruct Hx as (w1' & -> & Hu1 & Hq & Hs1).
      apply (outcome_rel_quiet _ _ _ _ Hq). now apply IHi.
    + destruct Hx as (w1' & -> & ?). eauto.
    + destruct Hx as (w1' & -> & ?). eauto.
Qed.

End SimStep.

(** The rewritten statement simulates the original one. *)
Lemma sim_stmt (n : nat) :
  forall item lc w w',
    clean_stmt item = true ->
    compile_block_ok (fill_item item) = true ->
    unshadowed lc = true -> sim w w' ->
    outcome_rel w (exec_stmt n item lc w)
                  (exec_block (S n) (fill_item item) lc w').
Proof.
  induction n as [|n IH]; intros item lc w w' Hc Hk Hu Hs; [exact I|].
  pose proof Hs as (E1 & E2 & _).
  destruct (is_return item) eqn:Hr.
  { (* return *)
    destruct item as [| | | | | | |val l| | |]; try discriminate.
    cbn [fill_item] in *. unfold _make_return_trace_call_exprs in *.
    cbn [stmt_value stmt_lineno] in *.
    destruct val as [e|]; [|discriminate].
    cbn [clean_stmt clean_value] in Hc.
    destruct (eval_clean e Hc lc) as [r Er].
    rewrite exec_block_cons. cbn [exec_stmt].
    rewrite (Er w E1), (Er w' E2).
    destruct r as [v|x]; [|simpl; eauto using quiet_refl].
    cbn [assign_targets].
    assert (Hu' : unshadowed (update RETVAL_NAME v lc) = true)
      by now apply unshadowed_update.
    rewrite exec_block_cons.
    destruct (sim_record (S n) l _ w w' Hu' Hs) as (w'' & -> & Hs' & Hst).
    pose proof Hs' as (_ & E2' & _).
    rewrite exec_block_cons, (exec_dump (S n) _ w'' Hu' E2').
    rewrite exec_block_cons. cbn [exec_stmt eval].
    rewrite lookup_update_eq.
    cbn [outcome_rel]. exists w''. eauto 10 using quiet_refl. }
  destruct (has_nested item) eqn:Hn.
  2:{ (* plain *)
    assert (Hp : is_plain item = true).
    { unfold is_plain. fold (has_nested item). now rewrite Hr, Hn. }
    rewrite (fill_item_plain _ Hp), exec_block_cons.
    pose proof (plain_sim n (S n) item lc w w' Hp Hc Hu Hs) as Hx.
    destruct (exec_stmt (S n) item lc w)
      as [lc1 w1|lc1 w1|lc1 w1|v1 lc1 w1|e w1|]; try contradiction.
    - destruct Hx as (Hu1 & Hq & w1' & -> & Hs1 & _).
      rewrite exec_block_single.
      destruct (sim_record (S n) (stmt_lineno item) lc1 w1 w1' Hu1 Hs1)
        as (w'' & -> & Hs' & _).
      simpl. eauto.
    - destruct Hx as (Hu1 & Hq & w1' & -> & Hs1 & _). simpl. eauto.
    - destruct Hx as (Hu1 & Hq & w1' & -> & Hs1 & _). simpl. eauto.
    - destruct Hx as (Hq & w1' & -> & Hs1 & _). simpl. eauto. }
  (* nested *)
  destruct (clean_stmt_nested _ Hn Hc) as [Hcb Hco].
  rewrite (fill_item_nested _ Hn) in Hk |- *.
  unfold compile_block_ok in Hk. cbn [forallb] in Hk.
  rewrite andb_true_r in Hk.
  rewrite exec_block_single.
  destruct item as [| | | | | | | |test body orelse l|test body orelse l
                   |target iter body orelse l]; try discriminate;
    cbn [with_blocks stmt_body stmt_orelse stmt_lineno] in *;
    rewrite compile_ok_nested in Hk by reflexivity;
    cbn [stmt_body stmt_orelse] in Hk;
    apply andb_prop in Hk as [Hkb Hko];
    unfold compile_block_ok in Hkb, Hko; cbn [forallb] in Hkb, Hko;
    cbn [compile_ok _make_record_state_call_expr] in Hkb, Hko;
    cbn [andb] in Hkb, Hko;
    fold (compile_block_ok (fill_loop body)) in Hkb;
    fold (compile_block_ok (fill_loop orelse)) in Hko.
  - (* If *)
    cbn [clean_stmt] in Hc. apply andb_prop in Hc as [Hc _].
    apply andb_prop in Hc as [Ht _].
    destruct (eval_clean test Ht lc) as [r Er].
    rewrite !exec_stmt_if, (Er w E1), (Er w' E2).
    destruct r as [c|x]; [|simpl; eauto using quiet_refl].
    destruct (truthy c); now apply sim_nested.
  - (* While *)
    pose proof Hc as Hc0.
    cbn [clean_stmt] in Hc. apply andb_prop in Hc as [Hc _].
    apply andb_prop in Hc as [Ht _].
    destruct (eval_clean test Ht lc) as [r Er].
    rewrite !exec_stmt_while, (Er w E1), (Er w' E2).
    destruct r as [c|x]; [|simpl; eauto using quiet_refl].
    destruct (truthy c); [|now apply sim_nested].
    pose proof (sim_nested n IH l body lc w w' Hcb Hkb Hu Hs) as Hx.
    assert (Hnext : forall lc2 w2 w2',
               unshadowed lc2 = true -> quiet w w2 -> sim w2 w2' ->
               outcome_rel w
                 (exec_stmt n (While test body orelse l) lc2 w2)
                 (exec_stmt (S n)
                    (While test
                       (_make_record_state_call_expr l :: fill_loop body)
                       (_make_record_state_call_expr l :: fill_loop orelse)
                       l) lc2 w2')).
    { intros lc2 w2 w2' Hu2 Hq2 Hs2.
      apply (outcome_rel_quiet _ _ _ _ Hq2).
      assert (HK : compile_block_ok
                     (fill_item (While test body orelse l)) = true).
      { rewrite (fill_item_nested _ Hn).
        unfold compile_block_ok at 1. cbn [forallb]. rewrite andb_true_r.
        rewrite compile_ok_nested by reflexivity.
        cbn [with_blocks stmt_body stmt_orelse stmt_lineno].
        unfold compile_block_ok in *. cbn [forallb].
        cbn [compile_ok _make_record_state_call_expr andb].
        now rewrite Hkb, Hko. }
      pose proof (IH (While test body orelse l) lc2 w2 w2' Hc0 HK Hu2 Hs2)
        as HI.
      rewrite (fill_item_nested _ Hn), exec_block_single in HI.
      exact HI. }
    destruct (exec_block n body lc w)
      as [lc1 w1|lc1 w1|lc1 w1|v1 lc1 w1|e w1|];
      cbn [outcome_rel] in Hx; [| | | | |exact I].
    + destruct Hx as (w1' & -> & Hu1 & Hq & Hs1). now apply Hnext.
    + destruct Hx as (w1' & -> & ?). cbn [outcome_rel]. eauto.
    + destruct Hx as (w1' & -> & Hu1 & Hq & Hs1). now apply Hnext.
    + destruct Hx as (w1' & -> & ?). cbn [outcome_rel]. eauto.
    + destruct Hx as (w1' & -> & ?). cbn [outcome_rel]. eauto.
  - (* For *)
    cbn [clean_stmt] in Hc. apply andb_prop in Hc as [Hc _].
    apply andb_prop in Hc as [Hc _]. apply andb_prop in Hc as [Htg Hit].
    destruct target as [id ctx| | | |];
      try (cbn [exec_stmt]; simpl; now eauto using quiet_refl).
    cbn [clean_expr] in Htg. apply negb_true_iff in Htg.
    destruct (eval_clean iter Hit lc) as [r Er].
    rewrite !exec_stmt_for, (Er w E1), (Er w' E2).
    destruct r as [c|x]; [|simpl; eauto using quiet_refl].
    destruct c; try (simpl; now eauto using quiet_refl).
    now apply sim_for.
Qed.

(** ** More fuel changes nothing *)

Section MonoStep.

Variable n : nat.

Hypothesis IH :
  forall item lc w,
    exec_stmt n item lc w <> OutOfFuel ->
    exec_stmt (S n) item lc w = exec_stmt n item lc w.



End MonoStep.



(** ** The rewritten tree ends only if the original does *)


Section TermStep.

Variable n : nat.

Hypothesis IH :
  forall item lc w w',
    clean_stmt item = true ->
    compile_block_ok (fill_item item) = true ->
    unshadowed lc = true -> sim w w' ->
    exec_block n (fill_item item) lc w' <> OutOfFuel ->
    exec_stmt n item lc w <> OutOfFuel.





End TermStep.



(** ** The decorated definition *)

Lemma record_inv (f f' : FunctionDef) (w w' : world) :
  plain_module w -> record f false w = Ok (f', w') ->
  name f' = name f /\ args f' = args f /\
  body f' = fill_loop (body f) /\
  compile_block_ok (fill_loop (body f)) = true /\
  env w' = runtime_env /\ store w' = Some [] /\
  files w' = files w /\ stdout w' = stdout w.
Proof.
  intros Hm H. unfold record in H. cbn [_fill_body_with_record bind] in H.
  destruct (compile_block_ok (fill_loop (body f))) eqn:Hk; [|discriminate].
  injection H as <- <-. cbn.
  repeat split; trivial.
  destruct Hm as [-> | ->]; reflexivity.
Qed.

Lemma bind_args_unshadowed (params : list string) :
  forallb (fun p => negb (is_reserved p)) params = true ->
  forall vs lc lc1,
    unshadowed lc = true -> bind_args params vs lc = Ok lc1 ->
    unshadowed lc1 = true.
Proof.
  induction params as [|p ps IH]; intros Hc vs lc lc1 Hu H.
  - destruct vs; [|discriminate]. now injection H as <-.
  - destruct vs as [|v vs]; [discriminate|].
    simpl in Hc. apply andb_prop in Hc as [Hp Hc].
    apply negb_true_iff in Hp.
    apply (IH Hc vs _ _ (unshadowed_update lc p v Hu Hp) H).
Qed.







(** The rewritten body simulates the original body. *)
Lemma sim_body (n : nat) (b : list stmt) (lc : locals) (w w' : world) :
  clean_block b = true -> compile_block_ok (fill_loop b) = true ->
  unshadowed lc = true -> sim w w' ->
  outcome_rel w (exec_block n b lc w) (exec_block (S n) (fill_loop b) lc w').
Proof. apply sim_block. apply sim_stmt. Qed.

(** Wherever a [return] stands in the definition, the rewritten
    definition has in its place exactly four statements: the assignment
    of the returned expression to [_retval_hidden_123], the emission call
    tagged with the line of the [return], the dump call, and the [return]
    of [_retval_hidden_123].  Run in a scope that binds no reserved name,
    with the runtime functions in the module, where the [return] has an
    expression and it has a value, the four statements record one entry
    at the line of the [return] whose snapshot binds [_retval_hidden_123]
    to that value, write one file holding the whole store and return the
    value, whatever follows them.  And a run of a rewritten block that
    is free of the reserved names and compiles, leaving through a
    [return], has written exactly one file more than when it began. *)
Theorem return_rewrite (value : option expr) (lineno : Z) :
  (forall original_body,
      occurs [Return value lineno] original_body ->
      occurs [Assign [Name RETVAL_NAME Store] value 0;
              _make_record_state_call_expr lineno;
              _make_dump_state_call_expr;
              Return (Some (Name RETVAL_NAME Load)) 0]
             (fill_loop original_body)) /\
  (forall e fuel lc w v w1 data rest,
      value = Some e -> unshadowed lc = true ->
      eval e lc w = Ok (v, w1) ->
      env w1 = runtime_env -> store w1 = Some data ->
      let lc' := update RETVAL_NAME v lc in
      let w2 := set_store w1 (Some (data ++ [(line lineno, VDict lc')])) in
      exec_block (S fuel)
        (_make_return_trace_call_exprs (Return value lineno) ++ rest) lc w =
        Ret v lc' (flushed w2) /\
      lookup RETVAL_NAME lc' = Some v /\
      files (flushed w2) = files w1 ++ [store w2] /\
      stdout (flushed w2) = stdout w1 ++ [Recorded (List.length (files w1))]) /\
  (forall fuel original_body lc w v lc1 w1,
      clean_block original_body = true ->
      compile_block_ok (fill_loop original_body) = true ->
      unshadowed lc = true -> env w = runtime_env -> store w <> None ->
      exec_block fuel original_body lc w = Ret v lc1 w1 ->
      exists w1',
        exec_block (S fuel) (fill_loop original_body) lc w =
          Ret v (update RETVAL_NAME v lc1) w1' /\
        files w1' = files w ++ [store w1'] /\
        exists data l,
          store w1' =
          Some (data ++ [(line l, VDict (update RETVAL_NAME v lc1))])).
Proof.
  split; [|split].
  - intros original_body H. exact (occurs_fill _ _ H).
  - intros e fuel lc w v w1 data rest -> Hu He Henv Hst lc' w2.
    assert (Hu' : unshadowed lc' = true) by now apply unshadowed_update.
    split; [|split; [apply lookup_update_eq|split; reflexivity]].
    unfold _make_return_trace_call_exprs. cbn [stmt_value stmt_lineno app].
    rewrite exec_block_cons. cbn [exec_stmt]. rewrite He.
    cbn [assign_targets]. fold lc'.
    rewrite exec_block_cons, (exec_record fuel lineno lc' w1 data Hu' Henv Hst).
    fold (line lineno). fold w2.
    rewrite exec_block_cons, (exec_dump fuel lc' w2 Hu' Henv).
    rewrite exec_block_cons. cbn [exec_stmt eval].
    unfold lc'. now rewrite lookup_update_eq.
  - intros fuel b lc w v lc1 w1 Hc Hk Hu Henv Hst H.
    destruct (store w) as [data|] eqn:Hd; [|congruence].
    pose proof (sim_body fuel b lc w w Hc Hk Hu (sim_start w data Henv Hd))
      as Hx.
    rewrite H in Hx. cbn [outcome_rel] in Hx.
    destruct Hx as (w2' & -> & Hq & Hs & Hlast).
    exists (flushed w2'). split; [reflexivity|]. split; [|exact Hlast].
    destruct Hq as (_ & _ & Hf & _).
    destruct Hs as (_ & _ & Hf' & _).
    cbn [flushed files store]. now rewrite Hf', Hf.
Qed.

Lemma return_rewrite_witness :
  occurs [Assign [Name RETVAL_NAME Store] (Some Tests.x) 0;
          _make_record_state_call_expr 4;
          _make_dump_state_call_expr;
          Return (Some (Name RETVAL_NAME Load)) 0]
         (fill_loop (body Tests.test_return_wrapping)) /\
  exists w1',
    exec_block 2 (fill_loop (body Tests.test_return_wrapping)) []
               (snd (decorated Tests.test_return_wrapping)) =
      Ret (VInt 3) (update RETVAL_NAME (VInt 3) [("x", VInt 3)]) w1' /\
    files w1' = [store w1'].
Proof.
  destruct (return_rewrite (Some Tests.x) 4) as (H1 & _ & H3).
  split.
  - apply H1. apply occurs_later, occurs_head.
  - destruct (H3 1 (body Tests.test_return_wrapping) []
                (snd (decorated Tests.test_return_wrapping))
                (VInt 3) [("x", VInt 3)]
                (snd (decorated Tests.test_return_wrapping)))
      as (w1' & E & F & _);
      try reflexivity; try discriminate.
    exists w1'. split; [exact E|exact F].
Defined.

(** [C3] fails on a [return] without value.  The definition
    [def foo(): x = 3; return] returns [None] as it stands; its [return]
    is rewritten into the four statements, but the assignment copies
    the missing value of the [return], so it is an assignment of
    nothing, which [compile] refuses: [record] raises [ValueError], and
    no run assigns the temporary, records the entry of line 4 or writes
    a file. *)
Lemma return_rewrite_bare_return :
  let f := {| name := "foo"; args := [];
              body := [Tests.set "x" (Num 3) 3; Return None 4] |} in
  call 2 f [] Tests.fresh = Returned VNone Tests.fresh /\
  fill_loop (body f) =
    [Tests.set "x" (Num 3) 3;
     _make_record_state_call_expr 3;
     Assign [Name RETVAL_NAME Store] None 0;
     _make_record_state_call_expr 4;
     _make_dump_state_call_expr;
     Return (Some (Name RETVAL_NAME Load)) 0] /\
  compile_ok (Assign [Name RETVAL_NAME Store] None 0) = false /\
  record f false Tests.fresh = Raise ValueError.
Proof. cbv zeta. repeat split. Qed.



(** [C4] fails on a body that ends without a [return].  The definition
    of [test_simple] returns [None]; decorated, it returns [None] too and
    has recorded its two entries, but no dump call stands at the end of
    the rewritten body, so no file is written and nothing is printed:
    the store is not serialized on this way out, where [test_simple]
    expects one call of the dump function. *)
Lemma fall_off_end_not_flushed :
  call 2 Tests.test_simple [] (snd (decorated Tests.test_simple)) =
    Returned VNone (snd (decorated Tests.test_simple)) /\
  fill_loop (body Tests.test_simple) =
    [Tests.set "x" (Num 5) 3; _make_record_state_call_expr 3;
     Tests.set "y" (Num 6) 4; _make_record_state_call_expr 4] /\
  exists w1,
    call 2 (fst (decorated Tests.test_simple)) []
         (snd (decorated Tests.test_simple)) = Returned VNone w1 /\
    positions (trace w1) = [line 3; line 4] /\
    files w1 = [] /\ stdout w1 = [].
Proof.
  split; [reflexivity|]. split; [reflexivity|].
  eexists. split; [vm_compute; reflexivity|]. repeat split.
Qed.

(** ** Loops and conditionals at run time *)












(** ** The test suite, replayed on the model *)

Section TestSuite.
Import Tests.

Example test_simple_lines :
  recorded_lines test_simple = Some (map line [3; 4]%Z).
Proof. vm_compute. reflexivity. Qed.

Example test_conditional_lines :
  recorded_lines test_conditional = Some (map line [3; 4; 5; 6]%Z).
Proof. vm_compute. reflexivity. Qed.

Example test_conditional_else_lines :
  recorded_lines test_conditional_else = Some (map line [3; 4; 5; 8]%Z).
Proof. vm_compute. reflexivity. Qed.

Example test_while_lines :
  recorded_lines test_while =
  Some (map line [3; 4; 6; 7; 6; 7; 6; 7; 6]%Z).
Proof. vm_compute. reflexivity. Qed.

Example test_for_lines :
  recorded_lines test_for =
  Some (map line [3; 4; 5; 6; 5; 6; 5; 6; 5]%Z).
Proof. vm_compute. reflexivity. Qed.

Example test_nested_if_in_for_lines :
  recorded_lines test_nested_if_in_for =
  Some (map line [3; 4; 5; 6; 7; 5; 6; 7; 5; 6; 7; 5]%Z).
Proof. vm_compute. reflexivity. Qed.

Example test_return_wrapping_lines :
  recorded_lines test_return_wrapping = Some (map line [3; 4]%Z).
Proof. vm_compute. reflexivity. Qed.

Example test_find_indent_level :
  Text.find_indent_level "    def foo()" = 4 /\
  Text.find_indent_level "    " = 4 /\
  Text.find_indent_level "" = 0.
Proof. repeat split. Qed.

(** [test_strip_indent] replaces [find_indent_level] by the constant 4;
    on this source, which starts with a line feed, the function itself
    finds 5. *)
Example test_strip_indent :
  Text.strip_indent_at 4 indented_source = Ok stripped_source /\
  Text.find_indent_level indented_source = 5.
Proof. vm_compute. split; reflexivity. Qed.

(** Only a [return] statement is rewritten with a dump call: the body of
    [test_simple] falls off its end, and its call writes no file. *)
Example test_simple_files :
  match call 8 (fst (decorated test_simple)) [] (snd (decorated test_simple)) with
  | Returned v w1 => v = VNone /\ files w1 = [] /\ stdout w1 = []
  | _ => False
  end.
Proof. vm_compute. repeat split. Qed.

Example test_return_wrapping_files :
  match call 8 (fst (decorated test_return_wrapping)) []
             (snd (decorated test_return_wrapping)) with
  | Returned v w1 =>
      v = VInt 3 /\ files w1 = [store w1] /\ stdout w1 = [Recorded 0]
  | _ => False
  end.
Proof. vm_compute. repeat split. Qed.

(** A bare [return] has no value to assign: the tree built for it does
    not compile and [record] raises. *)
Example record_bare_return :
  record {| name := "foo"; args := []; body := [Return None 3] |}
         false fresh = Raise ValueError.
Proof. reflexivity. Qed.

End TestSuite.

(** ** More on the text normaliser *)

Section TextMore.
Import Text.

Lemma all_ws_substring_full (s : string) :
  all_ws s = true -> all_ws (String.substring 0 (String.length s) s) = true.
Proof.
  induction s as [|c rest IH]; [reflexivity|].
  simpl. intros H. apply andb_prop in H as [Hc Hr]. now rewrite Hc, IH.
Qed.

(** The level found is a position in the source or its length; every
    character before it is whitespace, and the character at it, when
    there is one, is not. *)
Theorem find_indent_level_position (source : string) :
  find_indent_level source <= String.length source /\
  all_ws (String.substring 0 (find_indent_level source) source) = true /\
  match String.get (find_indent_level source) source with
  | Some c => in_ws c = false
  | None => find_indent_level source = String.length source
  end.
Proof.
  unfold find_indent_level.
  pose proof (find_indent_loop_spec source 0) as H.
  destruct (find_indent_loop 0 source) as [j|].
  - destruct H as (k & -> & Hk & Hws & c & Hget & Hc). simpl.
    split; [lia|]. split; [exact Hws|]. now rewrite Hget.
  - split; [lia|]. split; [now apply all_ws_substring_full|].
    assert (Hn : forall s, String.get (String.length s) s = None).
    { clear. induction s; simpl; trivial. }
    now rewrite Hn.
Qed.

Lemma drop_chars_drop (m n : nat) (l : string) :
  drop_chars n (drop_chars m l) = drop_chars (m + n) l.
Proof.
  revert l. induction m as [|m IH]; intros l; [reflexivity|].
  destruct l as [|c rest]; simpl.
  - now destruct n.
  - apply IH.
Qed.

Lemma split_strip (n : nat) (source : string) :
  split_lines (join_lines (map (drop_chars n) (split_lines source))) =
  map (drop_chars n) (split_lines source).
Proof.
  apply split_join.
  - destruct (split_lines source) eqn:Hs; [|discriminate].
    now apply split_lines_nonempty in Hs.
  - pose proof (split_lines_no_newline source) as H.
    induction H as [|l ls Hl Hls IH]; simpl; constructor; trivial.
    now apply drop_chars_no_newline.
Qed.

(** Stripping [m] columns and then [n] columns is stripping [m + n]. *)
Theorem strip_indent_at_twice (m n : nat) (source : string) :
  bind (strip_indent_at m source) (strip_indent_at n) =
  strip_indent_at (m + n) source.
Proof.
  unfold strip_indent_at. rewrite !strip_lines_map. cbn [bind].
  rewrite strip_lines_map, split_strip, map_map.
  do 2 f_equal. apply map_ext. intros l. apply drop_chars_drop.
Qed.

Lemma split_lines_first (source : string) :
  exists rest, split_lines source = first_line source :: rest.
Proof.
  induction source as [|c s IH]; simpl; [now exists []|].
  destruct (Ascii.eqb c newline); [now eexists|].
  destruct IH as [rest ->]. now eexists.
Qed.

Lemma drop_chars_get (k : nat) (l : string) (c : ascii) :
  String.get k l = Some c ->
  exists rest, drop_chars k l = String c rest.
Proof.
  revert l. induction k as [|k IH]; intros [|c' rest] H; try discriminate.
  - injection H as ->. now eexists.
  - simpl in *. now apply IH.
Qed.

Lemma strip_indent_level_zero (source : string) :
  find_indent_level source = 0 -> strip_indent source = Ok source.
Proof.
  intros H. unfold strip_indent, strip_indent_at. rewrite H.
  now rewrite strip_lines_zero, join_split.
Qed.

(** When the first line of the source holds a character that is not
    whitespace, the text [strip_indent] returns starts at column 0, and
    stripping it again returns it unchanged. *)
Theorem strip_indent_column_zero (source : string) :
  all_ws (first_line source) = false ->
  exists out,
    strip_indent source = Ok out /\
    find_indent_level out = 0 /\
    strip_indent out = Ok out.
Proof.
  intros H.
  destruct (find_indent_loop_first_line source H 0) as (j & H1 & H2 & _).
  pose proof (find_indent_loop_spec (first_line source) 0) as Hs.
  rewrite H2 in Hs. destruct Hs as (k & -> & _ & _ & c & Hget & Hc).
  simpl in H1.
  unfold strip_indent at 1, strip_indent_at, find_indent_level.
  rewrite H1, strip_lines_map.
  destruct (split_lines_first source) as [rest ->].
  cbn [map]. destruct (drop_chars_get k _ c Hget) as [tl ->].
  eexists. split; [reflexivity|].
  assert (H0 : find_indent_level
                 (join_lines (String c tl :: map (drop_chars k) rest)) = 0).
  { cbn [join_lines].
    destruct (map (drop_chars k) rest);
      unfold find_indent_level; simpl; now rewrite Hc. }
  split; [exact H0|]. now apply strip_indent_level_zero.
Qed.

Lemma strip_indent_column_zero_witness :
  exists out,
    strip_indent (String.append "    def foo():" (String newline "        x = 3")) =
      Ok out /\
    find_indent_level out = 0 /\
    strip_indent out = Ok out.
Proof. apply strip_indent_column_zero. reflexivity. Defined.

End TextMore.

(** ** More on the rewrite *)

(** Rewriting two blocks one after the other is rewriting them apart, the
    emission call asked for with [prepend] standing in front of the
    first; the failed assertion of the first call is the failure of the
    whole. *)
Theorem fill_body_app (b1 b2 : list stmt) (prepend : bool)
    (lineno : option Z) :
  _fill_body_with_record (b1 ++ b2) prepend lineno =
  bind (_fill_body_with_record b1 prepend lineno)
       (fun r1 => bind (_fill_body_with_record b2 false None)
                       (fun r2 => Ok (r1 ++ r2))).
Proof.
  unfold _fill_body_with_record.
  destruct prepend; [destruct lineno|]; cbn [bind];
    now rewrite ?fill_loop_app.
Qed.

Lemma stmt_kind (item : stmt) :
  (is_return item = true /\ has_nested item = false /\ is_plain item = false) \/
  (is_return item = false /\ has_nested item = true /\ is_plain item = false) \/
  (is_return item = false /\ has_nested item = false /\ is_plain item = true).
Proof. destruct item; cbv; tauto. Qed.

(** The rewritten block has one statement for each statement with nested
    blocks, two for each plain statement and four for each [return]. *)
Theorem fill_loop_length (original_body : list stmt) :
  List.length (fill_loop original_body) =
  List.length (filter has_nested original_body) +
  2 * List.length (filter is_plain original_body) +
  4 * List.length (filter is_return original_body).
Proof.
  induction original_body as [|x rest IH]; [reflexivity|].
  cbn [fill_loop filter]. rewrite length_app, IH.
  destruct (stmt_kind x) as [(Hr & Hn & Hp)|[(Hr & Hn & Hp)|(Hr & Hn & Hp)]];
    rewrite Hr, Hn, Hp; cbv iota.
  - rewrite (fill_item_return _ Hr). unfold _make_return_trace_call_exprs.
    cbn [List.length]. lia.
  - rewrite (fill_item_nested _ Hn). cbn [List.length]. lia.
  - rewrite (fill_item_plain _ Hp). cbn [List.length]. lia.
Qed.


(** ** More on the decorator *)










(** ** What no run does *)

Lemma grows_refl (w : world) : grows w w.
Proof.
  unfold grows. split; [reflexivity|]. split.
  - destruct (store w); [exists []; now rewrite app_nil_r|reflexivity].
  - split; exists []; now rewrite app_nil_r.
Qed.

Lemma grows_trans (w1 w2 w3 : world) : grows w1 w2 -> grows w2 w3 -> grows w1 w3.
Proof.
  intros (E1 & S1 & (f1 & F1) & (o1 & O1)) (E2 & S2 & (f2 & F2) & (o2 & O2)).
  unfold grows. split; [congruence|]. split.
  - destruct (store w1) as [d|].
    + destruct S1 as [e1 S1]. rewrite S1 in S2. destruct S2 as [e2 S2].
      exists (e1 ++ e2). now rewrite S2, app_assoc.
    + now rewrite S1 in S2.
  - split.
    + exists (f1 ++ f2). now rewrite F2, F1, app_assoc.
    + exists (o1 ++ o2). now rewrite O2, O1, app_assoc.
Qed.

Lemma grows_put (w : world) (o : output) : grows w (put w o).
Proof.
  unfold grows, put. cbn. split; [reflexivity|]. split.
  - destruct (store w); [exists []; now rewrite app_nil_r|reflexivity].
  - split; [exists []; now rewrite app_nil_r|now exists [o]].
Qed.

Lemma apply_builtin_grows (b : builtin) (vs : list value) (lc : locals)
    (w : world) (v : value) (w1 : world) :
  apply_builtin b vs lc w = Ok (v, w1) -> grows w w1.
Proof.
  destruct b; cbn [apply_builtin].
  - destruct vs; [|discriminate]. intros H. injection H as _ <-.
    apply grows_refl.
  - destruct vs as [|[] [|]]; try discriminate.
    intros H. injection H as _ <-. apply grows_refl.
  - destruct vs as [|a [|b [|]]]; try discriminate.
    unfold _record_state_fn_hidden_123.
    destruct (store w) as [d|] eqn:Hs; [|discriminate].
    intros H. injection H as _ <-.
    unfold grows, set_store. cbn. rewrite Hs.
    split; [reflexivity|]. split; [now eexists|].
    split; exists []; now rewrite app_nil_r.
  - destruct vs; [|discriminate].
    unfold _dump_state_fn_hidden_123. intros H. injection H as _ <-.
    unfold grows. cbn. split; [reflexivity|]. split.
    + destruct (store w); [exists []; now rewrite app_nil_r|reflexivity].
    + split; now eexists.
Qed.

Lemma eval_grows (e : expr) :
  forall lc w v w1, eval e lc w = Ok (v, w1) -> grows w w1.
Proof.
  induction e as [id ctx|n|l op r IHl IHr|l op r IHl IHr|func args IHf IHa]
    using expr_nested_ind; intros lc w v w1 H.
  - simpl in H. destruct (lookup id lc); [|discriminate].
    injection H as _ <-. apply grows_refl.
  - injection H as _ <-. apply grows_refl.
  - cbn [eval] in H.
    destruct (eval l lc w) as [[a wa]|] eqn:El; [|discriminate].
    cbn [bind] in H.
    destruct (eval r lc wa) as [[b wb]|] eqn:Er; [|discriminate].
    cbn [bind] in H. destruct (binop op a b); [|discriminate].
    cbn [bind] in H. injection H as _ <-. eauto using grows_trans.
  - cbn [eval] in H.
    destruct (eval l lc w) as [[a wa]|] eqn:El; [|discriminate].
    cbn [bind] in H.
    destruct (eval r lc wa) as [[b wb]|] eqn:Er; [|discriminate].
    cbn [bind] in H. destruct (compare op a b); [|discriminate].
    cbn [bind] in H. injection H as _ <-. eauto using grows_trans.
  - destruct func as [f ctx| | | |]; try discriminate.
    rewrite eval_call in H.
    destruct (lookup f lc); [discriminate|].
    destruct (resolve f w) as [b|]; [|discriminate].
    assert (Hargs : forall w vs w2,
               eval_args lc args w = Ok (vs, w2) -> grows w w2).
    { clear H. induction IHa as [|a args Ha _ IH]; intros w0 vs w2 H.
      - injection H as _ <-. apply grows_refl.
      - cbn [eval_args] in H.
        destruct (eval a lc w0) as [[va wa]|] eqn:Ea; [|discriminate].
        cbn [bind] in H. fold (eval_args lc args) in H.
        destruct (eval_args lc args wa) as [[vs' wb]|] eqn:Eb; [|discriminate].
        cbn [bind] in H. injection H as _ <-. eauto using grows_trans. }
    destruct (eval_args lc args w) as [[vs w2]|] eqn:Ea; [|discriminate].
    cbn [bind] in H.
    eauto using grows_trans, apply_builtin_grows.
Qed.

Lemma grows_outcome_trans (w w1 : world) (o : outcome) :
  grows w w1 -> grows_outcome w1 o -> grows_outcome w o.
Proof.
  unfold grows_outcome. destruct (outcome_world o); eauto using grows_trans.
Qed.

Section GrowStep.

Variable n : nat.

Hypothesis IH : forall item lc w, grows_outcome w (exec_stmt n item lc w).

Lemma exec_block_grows_step (b : list stmt) :
  forall lc w, grows_outcome w (exec_block n b lc w).
Proof.
  induction b as [|x rest IHb]; intros lc w.
  - apply grows_refl.
  - rewrite exec_block_cons. pose proof (IH x lc w) as Hx.
    destruct (exec_stmt n x lc w); trivial.
    eapply grows_outcome_trans; [exact Hx|apply IHb].
Qed.

Lemma for_loop_grows_step (id : string) (body orelse : list stmt)
    (items : list value) :
  forall lc w, grows_outcome w (for_loop n id body orelse items lc w).
Proof.
  induction items as [|v rest IHi]; intros lc w; cbn [for_loop].
  - apply exec_block_grows_step.
  - pose proof (exec_block_grows_step body (update id v lc) w) as Hx.
    destruct (exec_block n body (update id v lc) w); trivial;
      eapply grows_outcome_trans; try exact Hx; apply IHi.
Qed.

End GrowStep.

Lemma exec_stmt_grows (n : nat) :
  forall item lc w, grows_outcome w (exec_stmt n item lc w).
Proof.
  induction n as [|n IH]; intros item lc w; [exact I|].
  destruct item as [targets val l|target op val l|val l|val l|l|l|l|val l
                   |test body orelse l|test body orelse l
                   |target iter body orelse l]; cbn [exec_stmt].
  - destruct val as [e|]; [|apply grows_refl].
    destruct (eval e lc w) as [[v w1]|] eqn:He; [|apply grows_refl].
    apply eval_grows in He.
    destruct (assign_targets targets v lc); exact He.
  - destruct target; try apply grows_refl.
    destruct (lookup id lc) as [a|]; [|apply grows_refl].
    destruct (eval val lc w) as [[v w1]|] eqn:He; [|apply grows_refl].
    apply eval_grows in He. destruct (binop op a v); exact He.
  - destruct (eval val lc w) as [[v w1]|] eqn:He; [|apply grows_refl].
    apply eval_grows in He. exact He.
  - destruct (eval val lc w) as [[v w1]|] eqn:He; [|apply grows_refl].
    apply eval_grows in He.
    exact (grows_trans _ _ _ He (grows_put w1 (Printed v))).
  - apply grows_refl.
  - apply grows_refl.
  - apply grows_refl.
  - destruct val as [e|]; [|apply grows_refl].
    destruct (eval e lc w) as [[v w1]|] eqn:He; [|apply grows_refl].
    apply eval_grows in He. exact He.
  - fold (exec_block n).
    destruct (eval test lc w) as [[c w1]|] eqn:He; [|apply grows_refl].
    apply eval_grows in He.
    apply (grows_outcome_trans _ _ _ He).
    destruct (truthy c); now apply exec_block_grows_step.
  - change (grows_outcome w
              (exec_stmt (S n) (While test body orelse l) lc w)).
    rewrite exec_stmt_while.
    destruct (eval test lc w) as [[c w1]|] eqn:He; [|apply grows_refl].
    apply eval_grows in He.
    apply (grows_outcome_trans _ _ _ He).
    destruct (truthy c); [|now apply exec_block_grows_step].
    pose proof (exec_block_grows_step n IH body lc w1) as Hx.
    destruct (exec_block n body lc w1); trivial;
      eapply grows_outcome_trans; try exact Hx; apply IH.
  - destruct target as [id ctx| | | |]; try apply grows_refl.
    change (grows_outcome w
              (exec_stmt (S n) (For (Name id ctx) iter body orelse l) lc w)).
    rewrite exec_stmt_for.
    destruct (eval iter lc w) as [[c w1]|] eqn:He; [|apply grows_refl].
    apply eval_grows in He.
    destruct c; try exact He.
    apply (grows_outcome_trans _ _ _ He).
    now apply for_loop_grows_step.
Qed.

Lemma exec_block_grows (n : nat) (b : list stmt) (lc : locals) (w : world) :
  grows_outcome w (exec_block n b lc w).
Proof. apply exec_block_grows_step. apply exec_stmt_grows. Qed.

(** Whatever a definition does, decorated or not, a call of it leaves the
    module's globals as they were, only appends to the store (an entry
    once recorded stays where it is), only adds files after those there
    were and only prints after what was printed. *)
Theorem call_grows (fuel : nat) (f : FunctionDef) (vs : list value)
    (w : world) :
  match call fuel f vs w with
  | Returned _ w1 | Raised _ w1 => grows w w1
  | NoFuel => True
  end.
Proof.
  unfold call.
  destruct (bind_args (args f) vs []) as [lc|x]; [|apply grows_refl].
  pose proof (exec_block_grows fuel (body f) lc w) as H.
  destruct (exec_block fuel (body f) lc w); exact H.
Qed.

(** The dump function does not empty the store: whatever runs between
    two dumps, the file of the second one holds the entries of the file
    of the first one, in the same order, followed by those recorded
    since, and the first file is still there. *)
Theorem dumps_accumulate (fuel : nat) (b : list stmt) (lc : locals)
    (w : world) (data : list entry) :
  store w = Some data ->
  _dump_state_fn_hidden_123 w = Ok (VNone, flushed w) /\
  match outcome_world (exec_block fuel b lc (flushed w)) with
  | Some w1 =>
      exists extra between,
        _dump_state_fn_hidden_123 w1 = Ok (VNone, flushed w1) /\
        files (flushed w1) =
          files w ++ [Some data] ++ between ++ [Some (data ++ extra)]
  | None => True
  end.
Proof.
  intros Hs. split; [reflexivity|].
  pose proof (exec_block_grows fuel b lc (flushed w)) as H.
  unfold grows_outcome in H.
  destruct (outcome_world (exec_block fuel b lc (flushed w))) as [w1|];
    [|exact I].
  destruct H as (_ & Hst & (more & Hf) & _).
  cbn [flushed store files] in Hst, Hf. rewrite Hs in Hst, Hf.
  destruct Hst as [extra Hst].
  exists extra, more. split; [reflexivity|].
  cbn [flushed files store]. rewrite Hf, Hst, <- !app_assoc. reflexivity.
Qed.

Lemma dumps_accumulate_witness :
  exists extra between,
    match outcome_world
            (exec_block 2 (body (fst (decorated Tests.test_simple))) []
               (flushed (snd (decorated Tests.test_simple)))) with
    | Some w1 =>
        files (flushed w1) = [] ++ [Some []] ++ between ++ [Some ([] ++ extra)]
    | None => False
    end.
Proof.
  destruct (dumps_accumulate 2 (body (fst (decorated Tests.test_simple))) []
              (snd (decorated Tests.test_simple)) [] eq_refl) as [_ H].
  change (outcome_world
            (exec_block 2 (body (fst (decorated Tests.test_simple))) []
               (flushed (snd (decorated Tests.test_simple)))))
    with (Some (match exec_block 2 (body (fst (decorated Tests.test_simple)))
                        [] (flushed (snd (decorated Tests.test_simple))) with
                | Normal _ w1 => w1
                | _ => Tests.fresh
                end)) in H |- *.
  cbv beta iota in H.
  destruct H as (extra & between & _ & Hf).
  exists extra, between. exact Hf.
Defined.

(** The emission call looks [locals] and the record function up where
    the definition runs.  When the local scope binds one of the two
    names, the call raises [TypeError] and records nothing; so a
    definition that assigns to [locals] raises, once decorated, right
    after the assignment, where the original goes on. *)
Theorem emission_call_shadowed (fuel : nat) (l : Z) (lc : locals) (w : world)
    (v : value) :
  (lookup RECORD_FN_NAME lc = Some v ->
   exec_stmt (S fuel) (_make_record_state_call_expr l) lc w =
   Exc TypeError w) /\
  (lookup RECORD_FN_NAME lc = None -> env w = runtime_env ->
   lookup "locals" lc = Some v ->
   exec_stmt (S fuel) (_make_record_state_call_expr l) lc w =
   Exc TypeError w) /\
  (forall e rest w0,
      lookup RECORD_FN_NAME lc = None -> env w = runtime_env ->
      eval e lc w0 = Ok (v, w) ->
      exec_block (S fuel)
        (fill_loop (Assign [Name "locals" Store] (Some e) l :: rest)) lc w0 =
      Exc TypeError w /\
      exec_block (S fuel)
        (Assign [Name "locals" Store] (Some e) l :: rest) lc w0 =
      exec_block (S fuel) rest (update "locals" v lc) w).
Proof.
  assert (H2 : forall lc',
             lookup RECORD_FN_NAME lc' = None -> env w = runtime_env ->
             (exists v', lookup "locals" lc' = Some v') ->
             exec_stmt (S fuel) (_make_record_state_call_expr l) lc' w =
             Exc TypeError w).
  { intros lc' Hr He [v' Hl]. unfold _make_record_state_call_expr.
    cbn [exec_stmt]. rewrite eval_call, Hr. unfold resolve. rewrite He.
    change (lookup RECORD_FN_NAME runtime_env) with (Some BRecord).
    cbn [eval_args eval bind]. now rewrite Hl. }
  split; [|split].
  - intros Hr. unfold _make_record_state_call_expr.
    cbn [exec_stmt]. now rewrite eval_call, Hr.
  - intros Hr He Hl. apply H2; eauto.
  - intros e rest w0 Hr He Hev. split.
    + cbn [fill_loop fill_item stmt_lineno app].
      rewrite exec_block_cons. cbn [exec_stmt]. rewrite Hev.
      cbn [assign_targets]. rewrite exec_block_cons.
      rewrite H2; trivial.
      * rewrite lookup_update_ne by discriminate. exact Hr.
      * exists v. apply lookup_update_eq.
    + rewrite exec_block_cons. cbn [exec_stmt]. rewrite Hev. reflexivity.
Qed.

Lemma emission_call_shadowed_witness :
  exec_stmt 1 (_make_record_state_call_expr 3) [("locals", VInt 5)]
            (snd (decorated Tests.test_simple)) =
  Exc TypeError (snd (decorated Tests.test_simple)).
Proof.
  apply (proj1 (proj2 (emission_call_shadowed 0 3 [("locals", VInt 5)]
                         (snd (decorated Tests.test_simple)) (VInt 5))));
    reflexivity.
Defined.

(** ** The lines a decorated definition records *)

Lemma extends_within_refl (allowed : list Z) (data : list entry) (w : world) :
  store w = Some data -> extends_within allowed data w.
Proof. intros H. exists []. now rewrite app_nil_r. Qed.

Lemma extends_within_trans (allowed : list Z) (d d1 : list entry)
    (w1 w2 : world) :
  extends_within allowed d w1 -> store w1 = Some d1 ->
  extends_within allowed d1 w2 -> extends_within allowed d w2.
Proof.
  intros (e1 & S1 & F1) Hd (e2 & S2 & F2).
  rewrite S1 in Hd. injection Hd as <-.
  exists (e1 ++ e2). split; [now rewrite S2, app_assoc|].
  apply Forall_app. now split.
Qed.

Lemma within_outcome_trans (allowed : list Z) (d d1 : list entry)
    (w1 : world) (o : outcome) :
  extends_within allowed d w1 -> store w1 = Some d1 ->
  within_outcome allowed d1 o -> within_outcome allowed d o.
Proof.
  intros H1 Hd. destruct o; cbn [within_outcome]; trivial;
    intuition eauto using extends_within_trans.
Qed.

Lemma within_outcome_incl (a1 a2 : list Z) (d : list entry) (o : outcome) :
  incl a1 a2 -> within_outcome a1 d o -> within_outcome a2 d o.
Proof.
  intros Hi.
  assert (He : forall w, extends_within a1 d w -> extends_within a2 d w).
  { intros w (e & S & F). exists e. split; [exact S|].
    eapply Forall_impl; [|exact F]. intros x (l & E & I). eauto. }
  destruct o; cbn [within_outcome]; trivial; intuition.
Qed.

(** The emission call at a line of [allowed]. *)
Lemma within_record (n : nat) (allowed : list Z) (l : Z) (lc : locals)
    (w : world) (d : list entry) :
  In l allowed -> unshadowed lc = true ->
  env w = runtime_env -> store w = Some d ->
  exec_stmt n (_make_record_state_call_expr l) lc w = OutOfFuel \/
  exists w1 d1,
    exec_stmt n (_make_record_state_call_expr l) lc w = Normal lc w1 /\
    env w1 = runtime_env /\ store w1 = Some d1 /\
    extends_within allowed d w1.
Proof.
  intros Hin Hu He Hs. destruct n as [|n]; [now left|right]. eexists _, _.
  split; [apply (exec_record n l lc w d Hu He Hs)|].
  split; [exact He|]. split; [reflexivity|].
  exists [(line l, VDict lc)]. split; [reflexivity|].
  constructor; [|constructor]. now exists l.
Qed.

Section WithinStep.

Variable n : nat.

Hypothesis IH :
  forall item lc w d allowed,
    clean_stmt item = true -> incl (stmt_linenos item) allowed ->
    unshadowed lc = true -> env w = runtime_env -> store w = Some d ->
    within_outcome allowed d (exec_block n (fill_item item) lc w).

Lemma within_block (b : list stmt) :
  forall lc w d allowed,
    clean_block b = true -> incl (linenos b) allowed ->
    unshadowed lc = true -> env w = runtime_env -> store w = Some d ->
    within_outcome allowed d (exec_block n (fill_loop b) lc w).
Proof.
  induction b as [|x rest IHb]; intros lc w d allowed Hc Hi Hu He Hs.
  - cbn. auto using extends_within_refl.
  - simpl in Hc. apply andb_prop in Hc as [Hcx Hcr].
    unfold linenos in Hi. cbn [flat_map] in Hi.
    apply incl_app_inv in Hi as [Hix Hir].
    cbn [fill_loop]. rewrite exec_block_app.
    pose proof (IH x lc w d allowed Hcx Hix Hu He Hs) as Hx.
    destruct (exec_block n (fill_item x) lc w) as [lc1 w1| | | | |];
      trivial.
    cbn [within_outcome] in Hx. destruct Hx as (Hu1 & He1 & Hx).
    pose proof Hx as (e1 & S1 & _).
    eapply within_outcome_trans; [exact Hx|exact S1|].
    now apply IHb.
Qed.

Lemma within_nested (l : Z) (b : list stmt) (lc : locals) (w : world)
    (d : list entry) (allowed : list Z) :
  In l allowed ->
  clean_block b = true -> incl (linenos b) allowed ->
  unshadowed lc = true -> env w = runtime_env -> store w = Some d ->
  within_outcome allowed d
    (exec_block n (_make_record_state_call_expr l :: fill_loop b) lc w).
Proof.
  intros Hin Hc Hi Hu He Hs. rewrite exec_block_cons.
  destruct (within_record n allowed l lc w d Hin Hu He Hs)
    as [-> | (w1 & d1 & -> & He1 & Hs1 & Hx)]; [exact I|].
  eapply within_outcome_trans; [exact Hx|exact Hs1|].
  apply within_block; trivial.
Qed.

Lemma within_for (l : Z) (id : string) (body orelse : list stmt)
    (allowed : list Z) (items : list value) :
  In l allowed -> is_reserved id = false ->
  clean_block body = true -> incl (linenos body) allowed ->
  clean_block orelse = true -> incl (linenos orelse) allowed ->
  forall lc w d,
    unshadowed lc = true -> env w = runtime_env -> store w = Some d ->
    within_outcome allowed d
      (for_loop n id
         (_make_record_state_call_expr l :: fill_loop body)
         (_make_record_state_call_expr l :: fill_loop orelse) items lc w).
Proof.
  intros Hin Hid Hcb Hib Hco Hio.
  induction items as [|v rest IHi]; intros lc w d Hu He Hs; cbn [for_loop].
  - now apply within_nested.
  - pose proof (within_nested l body (update id v lc) w d allowed Hin Hcb Hib
                  (unshadowed_update lc id v Hu Hid) He Hs) as Hx.
    destruct (exec_block n
                (_make_record_state_call_expr l :: fill_loop body)
                (update id v lc) w) as [lc1 w1|lc1 w1|lc1 w1| | |];
      trivial; cbn [within_outcome] in Hx |- *.
    + destruct Hx as (Hu1 & He1 & Hx). pose proof Hx as (e1 & S1 & _).
      eapply within_outcome_trans; [exact Hx|exact S1|]. now apply IHi.
    + destruct Hx as (Hu1 & He1 & Hx). pose proof Hx as (e1 & S1 & _).
      eapply within_outcome_trans; [exact Hx|exact S1|]. now apply IHi.
Qed.

End WithinStep.

Lemma stmt_linenos_nested (item : stmt) :
  has_nested item = true ->
  stmt_linenos item =
  stmt_lineno item :: linenos (stmt_body item) ++ linenos (stmt_orelse item).
Proof. destruct item; try discriminate; reflexivity. Qed.

Lemma stmt_linenos_head (item : stmt) (allowed : list Z) :
  incl (stmt_linenos item) allowed -> In (stmt_lineno item) allowed.
Proof. intros H. apply H. destruct item; now left. Qed.

Lemma within_stmt (n : nat) :
  forall item lc w d allowed,
    clean_stmt item = true -> incl (stmt_linenos item) allowed ->
    unshadowed lc = true -> env w = runtime_env -> store w = Some d ->
    within_outcome allowed d (exec_block n (fill_item item) lc w).
Proof.
  induction n as [|n IH]; intros item lc w d allowed Hc Hi Hu He Hs.
  { destruct item; exact I. }
  pose proof (stmt_linenos_head _ _ Hi) as Hl.
  pose proof (extends_within_refl allowed d w Hs) as Hrefl.
  destruct (stmt_kind item)
    as [(Hr & Hn & Hp)|[(Hr & Hn & Hp)|(Hr & Hn & Hp)]].
  - (* return *)
    destruct item as [| | | | | | |val l| | |]; try discriminate.
    cbn [fill_item]. unfold _make_return_trace_call_exprs.
    cbn [stmt_value stmt_lineno] in *.
    rewrite exec_block_cons. cbn [exec_stmt].
    destruct val as [e|]; [|exact Hrefl].
    cbn [clean_stmt clean_value] in Hc.
    destruct (eval_clean e Hc lc) as [r Er]. rewrite (Er w He).
    destruct r as [v|x]; [|exact Hrefl].
    cbn [assign_targets].
    assert (Hu' : unshadowed (update RETVAL_NAME v lc) = true)
      by now apply unshadowed_update.
    rewrite exec_block_cons, (exec_record n l _ w d Hu' He Hs).
    rewrite exec_block_cons, exec_dump; [|exact Hu'|exact He].
    rewrite exec_block_cons. cbn [exec_stmt eval].
    rewrite lookup_update_eq. cbn [within_outcome].
    eexists. split; [reflexivity|].
    constructor; [|constructor]. now exists l.
  - (* nested *)
    destruct (clean_stmt_nested _ Hn Hc) as [Hcb Hco].
    rewrite (stmt_linenos_nested _ Hn) in Hi.
    assert (Hib : incl (linenos (stmt_body item)) allowed).
    { intros x Hx. apply Hi. right. apply in_or_app. now left. }
    assert (Hio : incl (linenos (stmt_orelse item)) allowed).
    { intros x Hx. apply Hi. right. apply in_or_app. now right. }
    pose proof Hc as Hc0.
    rewrite (fill_item_nested _ Hn), exec_block_single.
    destruct item as [| | | | | | | |test body orelse l|test body orelse l
                     |target iter body orelse l]; try discriminate;
      cbn [with_blocks stmt_body stmt_orelse stmt_lineno] in *.
    + cbn [clean_stmt] in Hc. apply andb_prop in Hc as [Hc _].
      apply andb_prop in Hc as [Ht _].
      destruct (eval_clean test Ht lc) as [r Er].
      rewrite exec_stmt_if, (Er w He).
      destruct r as [c|x]; [|exact Hrefl].
      destruct (truthy c); now apply within_nested.
    + cbn [clean_stmt] in Hc. apply andb_prop in Hc as [Hc _].
      apply andb_prop in Hc as [Ht _].
      destruct (eval_clean test Ht lc) as [r Er].
      rewrite exec_stmt_while, (Er w He).
      destruct r as [c|x]; [|exact Hrefl].
      destruct (truthy c); [|now apply within_nested].
      pose proof (within_nested n IH l body lc w d allowed Hl Hcb Hib Hu He Hs)
        as Hx.
      assert (Hnext : forall lc1 w1,
                 unshadowed lc1 = true -> env w1 = runtime_env ->
                 extends_within allowed d w1 ->
                 within_outcome allowed d
                   (exec_stmt n
                      (While test
                         (_make_record_state_call_expr l :: fill_loop body)
                         (_make_record_state_call_expr l :: fill_loop orelse)
                         l) lc1 w1)).
      { intros lc1 w1 Hu1 He1 Hx1. pose proof Hx1 as (e1 & S1 & _).
        eapply within_outcome_trans; [exact Hx1|exact S1|].
        pose proof (IH (While test body orelse l) lc1 w1 _ allowed Hc0
                      ltac:(rewrite (stmt_linenos_nested _ Hn); exact Hi)
                      Hu1 He1 S1) as HI.
        rewrite (fill_item_nested _ Hn), exec_block_single in HI.
        exact HI. }
      destruct (exec_block n
                  (_make_record_state_call_expr l :: fill_loop body) lc w)
        as [lc1 w1|lc1 w1|lc1 w1| | |];
        cbn [within_outcome] in Hx; trivial.
      * destruct Hx as (Hu1 & He1 & Hx). now apply Hnext.
      * destruct Hx as (Hu1 & He1 & Hx). now apply Hnext.
    + cbn [clean_stmt] in Hc. apply andb_prop in Hc as [Hc _].
      apply andb_prop in Hc as [Hc _]. apply andb_prop in Hc as [Htg Hit].
      destruct target as [id ctx| | | |]; try exact Hrefl.
      cbn [clean_expr] in Htg. apply negb_true_iff in Htg.
      destruct (eval_clean iter Hit lc) as [r Er].
      rewrite exec_stmt_for, (Er w He).
      destruct r as [c|x]; [|exact Hrefl].
      destruct c; try exact Hrefl.
      now apply within_for.
  - (* plain *)
    rewrite (fill_item_plain _ Hp), exec_block_cons.
    pose proof (plain_sim n n item lc w w Hp Hc Hu (sim_start w d He Hs))
      as Hx.
    destruct (exec_stmt (S n) item lc w)
      as [lc1 w1|lc1 w1|lc1 w1|v1 lc1 w1|e w1|]; try contradiction;
      cbn [within_outcome].
    + destruct Hx as (Hu1 & (He1 & Hs1 & _) & _).
      rewrite He in He1. rewrite Hs in Hs1.
      rewrite exec_block_single, (exec_record n _ lc1 w1 d Hu1 He1 Hs1).
      cbn [within_outcome]. split; [exact Hu1|]. split; [exact He1|].
      eexists. split; [reflexivity|].
      constructor; [|constructor]. eexists. now split.
    + destruct Hx as (Hu1 & (He1 & Hs1 & _) & _).
      rewrite He in He1. rewrite Hs in Hs1.
      auto using extends_within_refl.
    + destruct Hx as (Hu1 & (He1 & Hs1 & _) & _).
      rewrite He in He1. rewrite Hs in Hs1.
      auto using extends_within_refl.
    + destruct Hx as ((He1 & Hs1 & _) & _).
      rewrite Hs in Hs1. auto using extends_within_refl.
Qed.

Lemma within_body (n : nat) (b : list stmt) (lc : locals) (w : world)
    (d : list entry) :
  clean_block b = true ->
  unshadowed lc = true -> env w = runtime_env -> store w = Some d ->
  within_outcome (linenos b) d (exec_block n (fill_loop b) lc w).
Proof.
  intros Hc Hu He Hs.
  apply within_block; trivial; [apply within_stmt|apply incl_refl].
Qed.

(** A decorated definition free of the reserved names records entries at
    line numbers of statements of the original only, whatever its call
    does: return, raise or run on. *)
Theorem recorded_lines_are_statement_lines (f f' : FunctionDef)
    (w w' : world) (vs : list value) (fuel : nat) :
  clean_def f = true -> plain_module w ->
  record f false w = Ok (f', w') ->
  match call fuel f' vs w' with
  | Returned _ w1 | Raised _ w1 =>
      Forall (fun e => exists l, fst e = line l /\ In l (linenos (body f)))
             (trace w1)
  | NoFuel => True
  end.
Proof.
  intros Hc Hm Hrec.
  destruct (record_inv f f' w w' Hm Hrec)
    as (_ & Ha & Hb & _ & He & Hst & _).
  unfold clean_def in Hc. apply andb_prop in Hc as [Hca Hcb].
  unfold call. rewrite Ha, Hb.
  destruct (bind_args (args f) vs []) as [lc|x] eqn:Hbind.
  2:{ unfold trace. rewrite Hst. constructor. }
  pose proof (bind_args_unshadowed _ Hca vs [] lc eq_refl Hbind) as Hu.
  pose proof (within_body fuel (body f) lc w' [] Hcb Hu He Hst) as H.
  assert (Hext : forall w1,
             extends_within (linenos (body f)) [] w1 ->
             Forall (fun e => exists l, fst e = line l /\
                                        In l (linenos (body f))) (trace w1)).
  { intros w1 (extra & S & F). unfold trace. now rewrite S. }
  destruct (exec_block fuel (fill_loop (body f)) lc w');
    cbn [within_outcome] in H; trivial; apply Hext; tauto.
Qed.

Lemma recorded_lines_are_statement_lines_witness :
  match call 8 (fst (decorated Tests.test_nested_if_in_for)) []
             (snd (decorated Tests.test_nested_if_in_for)) with
  | Returned _ w1 | Raised _ w1 =>
      Forall (fun e => exists l,
                  fst e = line l /\
                  In l (linenos (body Tests.test_nested_if_in_for)))
             (trace w1)
  | NoFuel => True
  end.
Proof.
  apply (recorded_lines_are_statement_lines Tests.test_nested_if_in_for
           (fst (decorated Tests.test_nested_if_in_for)) Tests.fresh
           (snd (decorated Tests.test_nested_if_in_for)) [] 8).
  - reflexivity.
  - left. reflexivity.
  - reflexivity.
Defined.

(** ** Blocks the rewrite changes, statements that do not complete, and
    blank sources *)

Lemma fill_loop_length_ge (b : list stmt) :
  List.length b <= List.length (fill_loop b).
Proof.
  induction b as [|x rest IH]; [reflexivity|].
  cbn [fill_loop List.length]. rewrite length_app.
  assert (1 <= List.length (fill_item x)).
  { destruct (stmt_kind x) as [(Hr & _)|[(_ & Hn & _)|(_ & _ & Hp)]].
    - rewrite (fill_item_return _ Hr). cbn. lia.
    - rewrite (fill_item_nested _ Hn). cbn. lia.
    - rewrite (fill_item_plain _ Hp). cbn. lia. }
  lia.
Qed.

Lemma emission_fill_not_self (l : Z) (b : list stmt) :
  _make_record_state_call_expr l :: fill_loop b <> b.
Proof.
  intros H. apply (f_equal (@List.length _)) in H. cbn [List.length] in H.
  pose proof (fill_loop_length_ge b). lia.
Qed.

Lemma with_blocks_body (x : stmt) (new_body new_orelse : list stmt) :
  has_nested x = true -> stmt_body (with_blocks x new_body new_orelse) = new_body.
Proof. destruct x; try discriminate; reflexivity. Qed.

Lemma fill_loop_not_self (b : list stmt) : b <> [] -> fill_loop b <> b.
Proof.
  destruct b as [|x rest]; [congruence|]. intros _ H.
  cbn [fill_loop] in H.
  destruct (stmt_kind x) as [(Hr & _)|[(_ & Hn & _)|(_ & _ & Hp)]].
  - rewrite (fill_item_return _ Hr) in H.
    destruct x; try discriminate.
  - rewrite (fill_item_nested _ Hn) in H. cbn [app] in H.
    injection H as Hx _.
    apply (f_equal stmt_body) in Hx.
    rewrite (with_blocks_body _ _ _ Hn) in Hx.
    now apply emission_fill_not_self in Hx.
  - rewrite (fill_item_plain _ Hp) in H. cbn [app] in H.
    injection H as H.
    now apply emission_fill_not_self in H.
Qed.

(** The rewrite leaves no block with a statement as it was: whatever
    [prepend] and [lineno] are, a result differs from the block given. *)
Theorem fill_body_changes (original_body new_body : list stmt)
    (prepend : bool) (lineno : option Z) :
  original_body <> [] ->
  _fill_body_with_record original_body prepend lineno = Ok new_body ->
  new_body <> original_body.
Proof.
  intros Hne H. unfold _fill_body_with_record in H.
  destruct prepend.
  - destruct lineno as [l|]; [|discriminate]. injection H as <-.
    apply emission_fill_not_self.
  - injection H as <-. now apply fill_loop_not_self.
Qed.

Lemma fill_body_changes_witness :
  fill_loop (body Tests.test_simple) <> body Tests.test_simple.
Proof.
  apply (fill_body_changes (body Tests.test_simple)
           (fill_loop (body Tests.test_simple)) false None).
  - discriminate.
  - reflexivity.
Defined.

(** The emission call stands after the statement, so it runs only when
    the statement completes: a statement without nested blocks that
    breaks, continues or raises is run as it was and leaves no entry. *)
Theorem abrupt_statement_not_recorded (n : nat) (item : stmt)
    (lc : locals) (w : world) :
  is_plain item = true ->
  completes (exec_stmt n item lc w) = false ->
  exec_block n (fill_item item) lc w = exec_stmt n item lc w.
Proof.
  intros Hp Hc. rewrite (fill_item_plain _ Hp), exec_block_cons.
  destruct (exec_stmt n item lc w); [discriminate| | | | |]; reflexivity.
Qed.

Lemma abrupt_statement_not_recorded_witness :
  exec_block 1 (fill_item (Break 3)) [] Tests.fresh =
  exec_stmt 1 (Break 3) [] Tests.fresh.
Proof.
  apply (abrupt_statement_not_recorded 1 (Break 3) [] Tests.fresh);
    reflexivity.
Defined.

Section TextBlank.
Import Text.

Lemma split_lines_length_le (source : string) :
  Forall (fun l => String.length l <= String.length source)
         (split_lines source).
Proof.
  induction source as [|c rest IH]; simpl.
  - repeat constructor.
  - destruct (Ascii.eqb c newline).
    + constructor; [simpl; lia|].
      eapply Forall_impl; [|exact IH]. simpl. intros; lia.
    + destruct (split_lines rest) as [|l ls].
      * constructor; [simpl; lia|constructor].
      * inversion IH as [|? ? Hl Hls]; subst. constructor; [simpl; lia|].
        eapply Forall_impl; [|exact Hls]. simpl. intros; lia.
Qed.

(** A source made of whitespace only is stripped to as many empty lines
    as it has lines. *)
Theorem strip_indent_blank (source : string) :
  all_ws source = true ->
  exists out,
    strip_indent source = Ok out /\
    split_lines out = map (fun _ => EmptyString) (split_lines source).
Proof.
  intros H. unfold strip_indent, strip_indent_at, find_indent_level.
  rewrite (find_indent_loop_all_ws _ H), strip_lines_map.
  eexists. split; [reflexivity|].
  rewrite split_strip.
  pose proof (split_lines_length_le source) as Hl.
  induction Hl as [|l ls Hle _ IH]; [reflexivity|].
  cbn [map]. now rewrite IH, (drop_chars_short _ _ Hle).
Qed.

Lemma strip_indent_blank_witness :
  exists out,
    strip_indent (String " " (String newline "  ")) = Ok out /\
    split_lines out = [EmptyString; EmptyString].
Proof.
  apply (strip_indent_blank (String " " (String newline "  "))).
  reflexivity.
Defined.

End TextBlank.
